(** * map_sdks.py: the reconciliation core, embedded and verified

    The development follows [map_sdks.py] top to bottom: the version
    normalisation helpers, the cross-reference engine, the flat output
    helper and the part of [main] that builds the version universe,
    decides the change verdict and picks the exit status; then the helpers
    of the adapters that work on data already fetched ([_make_slug],
    [_first_ios_sdk], [get_xcodes_versions], [_parse_xcodereleases_json],
    the merge loop of [source_apple_docs_json]) and the files [main]
    writes.

    Modelling conventions.
    - A Python [str] is a [string] (its UTF-8 bytes).  The only character
      the code inspects is the dot, an ASCII byte that never occurs inside
      a multi-byte sequence, so [in], [split] and [join] agree with Python.
    - A Python [dict] is an association list with pairwise distinct keys,
      kept in insertion order: iteration order is observable in the code
      ([setdefault] keeps the first writer, [next(iter(d))] takes the oldest
      key).
    - Code that can raise returns [option]; [None] stands for a raised
      exception.
    - A Python [float] that holds a ratio of two small counts is an exact
      rational of [Q]. *)

From Stdlib Require Import String Ascii List Bool Arith ZArith QArith Qround Lia Lqa.
From Stdlib Require Import Sorting.Sorted Sorting.Permutation.
From Stdlib Require DecimalString DecimalZ DecimalPos DecimalFacts.
Import ListNotations.

Close Scope Q_scope.
Local Open Scope string_scope.
Local Open Scope list_scope.
Local Open Scope nat_scope.

(** ** Python dictionaries as insertion-ordered association lists *)

Module PyDict.

Definition dict (V : Type) : Type := list (string * V).

Definition keys {V} (d : dict V) : list string := map fst d.
Definition values {V} (d : dict V) : list V := map snd d.

(** [d.get(k)] *)
Fixpoint get {V} (d : dict V) (k : string) : option V :=
  match d with
  | [] => None
  | (k', v) :: rest => if String.eqb k' k then Some v else get rest k
  end.

(** [k in d] *)
Definition mem {V} (d : dict V) (k : string) : bool :=
  match get d k with Some _ => true | None => false end.

(** [d[k] = v]: an existing key keeps its position, a new key goes last. *)
Fixpoint set {V} (d : dict V) (k : string) (v : V) : dict V :=
  match d with
  | [] => [(k, v)]
  | (k', v') :: rest =>
      if String.eqb k' k then (k', v) :: rest else (k', v') :: set rest k v
  end.

(** [d.setdefault(k, v)], as a statement: the first writer wins. *)
Definition setdefault {V} (d : dict V) (k : string) (v : V) : dict V :=
  match get d k with
  | Some _ => d
  | None => d ++ [(k, v)]
  end.

(** A well-formed dictionary has no repeated key. *)
Definition wf {V} (d : dict V) : Prop := NoDup (keys d).

(** [d1 == d2] on dictionaries: same length, and every key of [d1] is in
    [d2] with an equal value. *)
Definition eqb {V W} (veqb : V -> W -> bool) (d1 : dict V) (d2 : dict W)
  : bool :=
  Nat.eqb (length d1) (length d2)
  && forallb (fun kv => match get d2 (fst kv) with
                        | Some v2 => veqb (snd kv) v2
                        | None => false
                        end) d1.

End PyDict.

Import PyDict.

(** ** Version normalisation helpers *)

(** ["." in ver] *)
Fixpoint contains_dot (s : string) : bool :=
  match s with
  | EmptyString => false
  | String c rest => if Ascii.eqb c "."%char then true else contains_dot rest
  end.

(** [_normalize_xcode_ver] *)
Definition _normalize_xcode_ver (ver : string) : string :=
  if contains_dot ver then ver else (ver ++ ".0")%string.

(** [_normalize_source_keys]: one [setdefault] per item, in iteration
    order of the input. *)
Definition normalize_step (out : dict string) (kv : string * string)
  : dict string :=
  setdefault out (_normalize_xcode_ver (fst kv)) (snd kv).

Definition _normalize_source_keys (data : dict string) : dict string :=
  fold_left normalize_step data [].

(** The first item of [data] whose key normalises to [k]. *)
Definition first_normalizing_to (k : string) (data : dict string)
  : option (string * string) :=
  find (fun kv => String.eqb (_normalize_xcode_ver (fst kv)) k) data.

(** ** String helpers used by the engine *)

(** [s.split(".")]: always at least one piece. *)
Fixpoint split_dot (s : string) : list string :=
  match s with
  | EmptyString => [EmptyString]
  | String c rest =>
      if Ascii.eqb c "."%char then EmptyString :: split_dot rest
      else match split_dot rest with
           | [] => [String c EmptyString]
           | p :: ps => String c p :: ps
           end
  end.

(** [".".join(parts)] *)
Definition join_dot (parts : list string) : string := String.concat "." parts.

(** Truthiness of a [str]: only the empty string is falsy. *)
Definition truthy (s : string) : bool := negb (String.eqb s "").

(** *** [int(x)] on ASCII text

    White space around the number is dropped (tab, line feed, vertical
    tab, form feed, carriage return and space: the bytes 9 to 13 and 32),
    one sign is allowed, and the digits may be grouped by single
    underscores.  [None] is [ValueError].

    The model is [int] itself on text made of ASCII characters and of at
    most 4300 characters ([plain_text] below).  Outside of it Python
    differs: it also reads the decimal digits and blanks of other scripts,
    and from version 3.11 on it raises [ValueError] for more than 4300
    digits.  Statements that depend on the value of [int] are made for
    plain text. *)

Definition is_space (c : ascii) : bool :=
  let n := nat_of_ascii c in
  (Nat.leb 9 n && Nat.leb n 13) || Nat.eqb n 32.

Definition digit_of (c : ascii) : option Z :=
  let n := nat_of_ascii c in
  if Nat.leb 48 n && Nat.leb n 57 then Some (Z.of_nat (n - 48)) else None.

Fixpoint lstrip (s : string) : string :=
  match s with
  | String c rest => if is_space c then lstrip rest else s
  | EmptyString => EmptyString
  end.

Fixpoint string_rev (s : string) : string :=
  match s with
  | EmptyString => EmptyString
  | String c rest => (string_rev rest ++ String c EmptyString)%string
  end.

Definition strip (s : string) : string :=
  string_rev (lstrip (string_rev (lstrip s))).

(** [prev_digit] tells whether the character just read was a digit: an
    underscore is accepted only between two digits. *)
Fixpoint parse_digits (s : string) (acc : Z) (prev_digit : bool) : option Z :=
  match s with
  | EmptyString => if prev_digit then Some acc else None
  | String c rest =>
      match digit_of c with
      | Some d => parse_digits rest (10 * acc + d)%Z true
      | None =>
          if Ascii.eqb c "_"%char && prev_digit
          then parse_digits rest acc false
          else None
      end
  end.

Definition py_int (x : string) : option Z :=
  match strip x with
  | String "-"%char rest => option_map Z.opp (parse_digits rest 0%Z false)
  | String "+"%char rest => parse_digits rest 0%Z false
  | body => parse_digits body 0%Z false
  end.

(** [[f(x) for x in l]] where [f] may raise. *)
Fixpoint map_raise {A B} (f : A -> option B) (l : list A) : option (list B) :=
  match l with
  | [] => Some []
  | x :: rest =>
      match f x with
      | None => None
      | Some y => option_map (cons y) (map_raise f rest)
      end
  end.

(** [ver_key], the sort key local to [_results_to_flat] and to [main]:
    the [ValueError] of any component is caught and the key is [[0]]. *)
Definition ver_key (v : string) : list Z :=
  match map_raise py_int (split_dot v) with
  | Some ks => ks
  | None => [0%Z]
  end.

(** [a < b] on [list[int]]: the first differing position decides,
    a proper prefix is smaller. *)
Fixpoint key_ltb (a b : list Z) : bool :=
  match a, b with
  | [], [] => false
  | [], _ :: _ => true
  | _ :: _, [] => false
  | x :: a', y :: b' => if Z.eqb x y then key_ltb a' b' else Z.ltb x y
  end.

(** [a <= b], that is [not (b < a)]; the order is total. *)
Definition key_leb (a b : list Z) : bool := negb (key_ltb b a).

(** *** [sorted(l, key=...)]

    Python's sort is stable, and a stable sort by a total preorder has one
    possible result; insertion from the right computes it. *)

Section Sorting.
Context {A : Type} (key : A -> list Z).

Fixpoint insert_by (x : A) (l : list A) : list A :=
  match l with
  | [] => [x]
  | y :: rest =>
      if key_ltb (key y) (key x) then y :: insert_by x rest
      else x :: y :: rest
  end.

Definition sorted_by (l : list A) : list A := fold_right insert_by [] l.


(** [sorted(l, key=..., reverse=True)]: descending, ties still in their
    original order. *)
Definition sorted_by_reverse (l : list A) : list A :=
  rev (sorted_by (rev l)).
End Sorting.

(** ** Source priority list and static URLs *)

(** Index 0 is the highest authority. *)
Definition SOURCE_NAMES : list string :=
  [ "local_xcodebuild"; "apple_docs_json"; "apple_support"; "xcodereleases";
    "apple_archive_9"; "apple_archive_47"; "wikipedia_history";
    "wikipedia_xcode" ].

Definition SOURCE_URLS : dict string :=
  [ ("local_xcodebuild", "local:xcodebuild -showsdks");
    ("apple_docs_json",
     "https://developer.apple.com/tutorials/data/documentation/xcode-release-notes/");
    ("apple_support", "https://developer.apple.com/support/xcode/");
    ("xcodereleases", "https://xcodereleases.com/data.json");
    ("apple_archive_9",
     "https://developer.apple.com/library/archive/releasenotes/DeveloperTools/RN-Xcode/Chapters/Introduction.html");
    ("apple_archive_47",
     "https://developer.apple.com/library/archive/documentation/Xcode/Conceptual/RN-Xcode-Archive/Chapters/");
    ("wikipedia_history", "https://en.wikipedia.org/wiki/History_of_Xcode");
    ("wikipedia_xcode", "https://en.wikipedia.org/wiki/Xcode") ].

(** ** Cross-reference engine *)

Inductive Status : Type := consensus | single_source | conflict | not_found.

Definition Status_eqb (a b : Status) : bool :=
  match a, b with
  | consensus, consensus | single_source, single_source
  | conflict, conflict | not_found, not_found => true
  | _, _ => false
  end.

(** The dictionary returned by [cross_reference]; the entries of
    ["sources"] are (value, url) pairs. *)
Record resolution : Type := {
  xcode : string;
  ios_sdk : option string;
  status : Status;
  chosen_from : option string;
  agreement : Q;
  sources : dict (string * string)
}.

(** The value placed in ["sources"] for a source without data. *)
Definition NO_DATA : string := "—".

(** What one source offers for [xcode_ver]: the direct entry, else, for a
    version of exactly three components, the entry of its first two. *)
Definition lookup_source (src_data : dict string) (xcode_ver : string)
  : option string :=
  match get src_data xcode_ver with
  | Some sdk => Some sdk
  | None =>
      let parts := split_dot xcode_ver in
      if Nat.eqb (length parts) 3
      then get src_data (join_dot (firstn 2 parts))
      else None
  end.

(** One turn of the first loop of [cross_reference]; the state is
    ([per_source], [found_values]). *)
Definition collect_step (xcode_ver : string)
    (st : dict (option string) * dict string) (item : string * dict string)
  : dict (option string) * dict string :=
  let sdk := lookup_source (snd item) xcode_ver in
  (set (fst st) (fst item) sdk,
   match sdk with
   | Some v => set (snd st) (fst item) v
   | None => snd st
   end).

Definition collect (xcode_ver : string) (all_sources : dict (dict string))
  : dict (option string) * dict string :=
  fold_left (collect_step xcode_ver) all_sources ([], []).

Definition found_values (xcode_ver : string) (all_sources : dict (dict string))
  : dict string :=
  snd (collect xcode_ver all_sources).

(** [set(found_values.values())]; the order inside the set is never
    observed when it has more than one element. *)
Definition unique_values (found : dict string) : list string :=
  nodup string_dec (values found).

(** [_url_for]; [version_urls] is the global [_VERSION_URLS] as the
    adapters left it. *)
Definition _url_for (version_urls : dict (dict string)) (xcode_ver : string)
    (src_name : string) : string :=
  let ver_urls := match get version_urls src_name with
                  | Some d => d
                  | None => []
                  end in
  let static := match get SOURCE_URLS src_name with
                | Some u => u
                | None => ""
                end in
  let fallback :=
    let parts := split_dot xcode_ver in
    if Nat.eqb (length parts) 3
    then match get ver_urls (join_dot (firstn 2 parts)) with
         | Some u => if truthy u then u else static
         | None => static
         end
    else static in
  match get ver_urls xcode_ver with
  | Some u => if truthy u then u else fallback
  | None => fallback
  end.

(** [next((s for s in names if p(s)), default)] with the default already
    evaluated. *)
Definition next_or {A} (p : A -> bool) (names : list A) (default : A) : A :=
  match find p names with
  | Some s => s
  | None => default
  end.

(** [next(iter(d))]; [None] is [StopIteration]. *)
Definition first_key {V} (d : dict V) : option string := hd_error (keys d).

Definition value_is (found : dict string) (v : string) (s : string) : bool :=
  match get found s with
  | Some v' => String.eqb v' v
  | None => false
  end.

(** [sum(1 for v in found_values.values() if v == ios_sdk)] *)
Definition count_agree (found : dict string) (v : string) : nat :=
  length (filter (fun v' => String.eqb v' v) (values found)).

(** *** Floats

    [n_agree / len(found_values)] is the exact quotient, and [round(x, 2)]
    rounds to hundredths, a tie going to the even neighbour.  Python rounds
    the binary approximation of the quotient instead.  With fewer than 40
    reporting sources the two agree: the only ties are then odd eighths,
    which are exact in binary.  From 40 sources on they can differ (1 of 40
    is 0.03 in Python), so what is stated of a rounded value is stated
    below that bound. *)

Definition round_half_even (q : Q) : Z :=
  let f := Qfloor q in
  match Qcompare (q - inject_Z f) (1 # 2) with
  | Lt => f
  | Gt => (f + 1)%Z
  | Eq => if Z.even f then f else (f + 1)%Z
  end.

Definition py_round2 (q : Q) : Q :=
  Qred (inject_Z (round_half_even (q * 100)) / 100)%Q.

Definition nat_ratio (a n : nat) : Q :=
  (inject_Z (Z.of_nat a) / inject_Z (Z.of_nat n))%Q.

Definition source_entries (version_urls : dict (dict string))
    (xcode_ver : string) (all_sources : dict (dict string))
    (value_of : string -> string) : dict (string * string) :=
  map (fun s => (s, (value_of s, _url_for version_urls xcode_ver s)))
      (keys all_sources).

(** The value shown in ["sources"]: [found_values.get(s) or "—"]. *)
Definition shown_value (found : dict string) (s : string) : string :=
  match get found s with
  | Some v => if truthy v then v else NO_DATA
  | None => NO_DATA
  end.

(** The record returned when [unique_values] is empty. *)
Definition not_found_record (version_urls : dict (dict string))
    (xcode_ver : string) (all_sources : dict (dict string)) : resolution :=
  {| xcode := xcode_ver; ios_sdk := None; status := not_found;
     chosen_from := None; agreement := 0%Q;
     sources := source_entries version_urls xcode_ver all_sources
                  (fun _ => NO_DATA) |}.

(** The record built when [unique_values] has the single member [u];
    [default] is [next(iter(found_values))]. *)
Definition agreed_record (version_urls : dict (dict string))
    (xcode_ver : string) (all_sources : dict (dict string))
    (found : dict string) (u default : string) : resolution :=
  {| xcode := xcode_ver; ios_sdk := Some u;
     status := if Nat.ltb 1 (length found) then consensus else single_source;
     chosen_from := Some (next_or (value_is found u) SOURCE_NAMES default);
     agreement := py_round2 1%Q;
     sources := source_entries version_urls xcode_ver all_sources
                  (shown_value found) |}.

(** The record built when the sources disagree; [sdk] is
    [found_values[chosen]]. *)
Definition conflict_record (version_urls : dict (dict string))
    (xcode_ver : string) (all_sources : dict (dict string))
    (found : dict string) (chosen sdk : string) : resolution :=
  {| xcode := xcode_ver; ios_sdk := Some sdk; status := conflict;
     chosen_from := Some chosen;
     agreement :=
       py_round2 (match found with
                  | [] => 0%Q
                  | _ :: _ => nat_ratio (count_agree found sdk) (length found)
                  end);
     sources := source_entries version_urls xcode_ver all_sources
                  (shown_value found) |}.

(** [cross_reference]; [None] would be an uncaught exception
    ([StopIteration] from [next], [KeyError] from [found_values[...]]). *)
Definition cross_reference (version_urls : dict (dict string))
    (xcode_ver : string) (all_sources : dict (dict string))
  : option resolution :=
  let found := found_values xcode_ver all_sources in
  match unique_values found with
  | [] => Some (not_found_record version_urls xcode_ver all_sources)
  | [u] =>
      match first_key found with
      | None => None
      | Some default =>
          Some (agreed_record version_urls xcode_ver all_sources found u default)
      end
  | _ :: _ :: _ =>
      match first_key found with
      | None => None
      | Some default =>
          let chosen := next_or (mem found) SOURCE_NAMES default in
          match get found chosen with
          | None => None
          | Some sdk =>
              Some (conflict_record version_urls xcode_ver all_sources
                      found chosen sdk)
          end
      end
  end.

(** ** Output helper *)

(** [_results_to_flat]: oldest first, entries without a usable SDK left
    out. *)
Definition flat_step (flat : dict string) (r : resolution) : dict string :=
  match ios_sdk r with
  | Some sdk => if truthy sdk then set flat (xcode r) sdk else flat
  | None => flat
  end.

(** [if r.get("ios_sdk")]: present and not empty. *)
Definition usable (r : resolution) : bool :=
  match ios_sdk r with
  | Some sdk => truthy sdk
  | None => false
  end.

Definition _results_to_flat (results : list resolution) : dict string :=
  fold_left flat_step (sorted_by (fun r => ver_key (xcode r)) results) [].

(** ** [main], from the collected source data to the exit status *)

Record arguments : Type := {
  detailed : bool;
  conflicts_only : bool;
  skip_xcodes : bool
}.

#[local] Set Warnings "-register-all".

(** What [json.loads] can return, as far as a comparison with a
    [dict[str, str]] can tell: a string, an object, or anything else
    (number, boolean, null, array), which equals neither. *)
Inductive json_value : Type :=
| JString (s : string)
| JObject (members : list (string * json_value))
| JOther.

(** The file at [args.json] before the run: missing, present but
    unreadable or not JSON, or loaded. *)
Inductive previous_file : Type :=
| NoFile
| Unparsable
| Loaded (v : json_value).

(** Everything [main] reads from outside. *)
Record world : Type := {
  xcodes_cli : list string;
  fetched : list (string * dict string);
  version_urls : dict (dict string);
  previous : previous_file
}.

(** The argument of [sys.exit]. *)
Inductive exit_value : Type :=
| ExitInt (n : Z)
| ExitMessage (msg : string).

(** The status the process ends with: an integer argument is the status;
    a string is printed to stderr and the status is 1. *)
Definition exit_status (e : exit_value) : Z :=
  match e with
  | ExitInt n => n
  | ExitMessage _ => 1%Z
  end.

Definition EXIT_UNCHANGED : Z := 0%Z.
Definition EXIT_CHANGED : Z := 1%Z.

(** What the run writes: the flat mapping (JSON and CSV), or with
    [--detailed] the rows with their per-source breakdown; the metadata
    block of the detailed file (time stamp, counters) is left out. *)
Inductive written : Type :=
| FlatFiles (flat : dict string)
| DetailedFiles (rows : list resolution).

Record run : Type := {
  run_exit : exit_value;
  run_records : list resolution;
  run_written : option written
}.

(** [raw_sources], filled in completion order of the fetch tasks. *)
Definition raw_sources (fetched : list (string * dict string))
  : dict (dict string) :=
  fold_left (fun raw item => set raw (fst item) (_normalize_source_keys (snd item)))
            fetched [].

Definition ordered_sources (raw : dict (dict string)) : dict (dict string) :=
  map (fun s => (s, match get raw s with Some d => d | None => [] end))
      SOURCE_NAMES.

(** A [set[str]] as a duplicate-free list in insertion order.  Python
    fixes no iteration order for a set, and the order can change from one
    process to the next; it only shows between versions of equal sort
    key.  Nothing below is stated about the order of such versions. *)
Definition set_add (seen : list string) (v : string) : list string :=
  if existsb (String.eqb v) seen then seen else seen ++ [v].

Definition all_versions (xcodes_versions : list string)
    (ordered : dict (dict string)) : list string :=
  fold_left (fun acc src => fold_left set_add (keys (snd src)) acc)
            ordered
            (fold_left set_add xcodes_versions []).

Definition json_is_string (v : json_value) (s : string) : bool :=
  match v with
  | JString s' => String.eqb s' s
  | _ => false
  end.

(** [flat_old == flat_new] *)
Definition json_equals_flat (flat_old : json_value) (flat_new : dict string)
  : bool :=
  match flat_old with
  | JObject members => PyDict.eqb json_is_string members flat_new
  | _ => false
  end.

(** [map_changed] *)
Definition map_changed (prev : previous_file) (flat_new : dict string) : bool :=
  match prev with
  | NoFile => true
  | Unparsable => true
  | Loaded flat_old => negb (json_equals_flat flat_old flat_new)
  end.

Definition output_rows (args : arguments) (results : list resolution)
  : list resolution :=
  if conflicts_only args
  then filter (fun r => Status_eqb (status r) conflict
                        || Status_eqb (status r) not_found) results
  else results.

Definition NO_VERSIONS_MESSAGE : string :=
  "ERROR: No Xcode versions found from any source. Check network.".

Definition main (args : arguments) (w : world) : option run :=
  let xcodes_versions := if skip_xcodes args then [] else xcodes_cli w in
  let ordered := ordered_sources (raw_sources (fetched w)) in
  match all_versions xcodes_versions ordered with
  | [] =>
      Some {| run_exit := ExitMessage NO_VERSIONS_MESSAGE;
              run_records := [];
              run_written := None |}
  | universe =>
      let sorted_versions := sorted_by_reverse ver_key universe in
      match map_raise (fun ver => cross_reference (version_urls w) ver ordered)
                      sorted_versions with
      | None => None
      | Some results =>
          let rows := output_rows args results in
          let flat_new := _results_to_flat rows in
          Some {| run_exit :=
                    ExitInt (if map_changed (previous w) flat_new
                             then 1%Z else 0%Z);
                  run_records := results;
                  run_written :=
                    Some (if detailed args then DetailedFiles rows
                          else FlatFiles flat_new) |}
      end
  end.

(** ** Vocabulary of the statements

    These definitions read the inputs directly, without going through the
    loop of [cross_reference]; the theorems relate them to what the code
    computes. *)

Definition chars (s : string) : list ascii := list_ascii_of_string s.

(** [s] has no dot. *)
Definition dotless (s : string) : Prop := ~ In "."%char (chars s).

(** The (source, value) pairs of the sources that offer a value for
    [xcode_ver], directly or through the major.minor fallback. *)
Definition reporting (xcode_ver : string) (all_sources : dict (dict string))
  : dict string :=
  flat_map (fun item => match lookup_source (snd item) xcode_ver with
                        | Some v => [(fst item, v)]
                        | None => []
                        end) all_sources.

Definition n_reporting (xcode_ver : string) (all_sources : dict (dict string))
  : nat := length (reporting xcode_ver all_sources).

Definition reported_values (xcode_ver : string)
    (all_sources : dict (dict string)) : list string :=
  values (reporting xcode_ver all_sources).

Definition all_identical (vs : list string) : Prop :=
  forall a b, In a vs -> In b vs -> a = b.

Definition two_distinct (vs : list string) : Prop :=
  exists a b, In a vs /\ In b vs /\ a <> b.

(** What the source named [s] offers for [xcode_ver]. *)
Definition source_value (all_sources : dict (dict string))
    (xcode_ver : string) (s : string) : option string :=
  match get all_sources s with
  | Some d => lookup_source d xcode_ver
  | None => None
  end.

Definition offers (all_sources : dict (dict string)) (xcode_ver : string)
    (s : string) : bool :=
  match source_value all_sources xcode_ver s with
  | Some _ => true
  | None => false
  end.

(** The first name of [SOURCE_NAMES] that offers a value. *)
Definition first_authority (all_sources : dict (dict string))
    (xcode_ver : string) : option string :=
  find (offers all_sources xcode_ver) SOURCE_NAMES.

(** Every source name has a rank in [SOURCE_NAMES]. *)
Definition ranked (all_sources : dict (dict string)) : Prop :=
  Forall (fun s => In s SOURCE_NAMES) (keys all_sources).




(** At [k] the two dictionaries are both undefined, or both defined with
    related values. *)
Definition agree_at {V W} (veqb : V -> W -> bool) (d1 : dict V) (d2 : dict W)
    (k : string) : Prop :=
  match get d1 k, get d2 k with
  | Some a, Some b => veqb a b = true
  | None, None => True
  | _, _ => False
  end.

(** Two dictionaries hold the same key-to-value mapping. *)
Definition same_mapping (members : dict json_value) (flat : dict string)
  : Prop :=
  forall k, get members k = option_map JString (get flat k).

(** The two sources of the conflict scenario. *)
Definition two_sources (first second : string) (v1 v2 : string)
  : dict (dict string) :=
  [ (first, [("9.0", v1)]); (second, [("9.0", v2)]) ].

Definition three_way_split : dict (dict string) :=
  [ ("apple_support", [("9.0", "11.0")]);
    ("xcodereleases", [("9.0", "11.1")]);
    ("wikipedia_xcode", [("9.0", "11.2")]) ].

(** The highest-ranked source stands alone against two that agree. *)
Definition outvoted_authority : dict (dict string) :=
  [ ("apple_support", [("9.0", "11.0")]);
    ("xcodereleases", [("9.0", "11.1")]);
    ("wikipedia_xcode", [("9.0", "11.1")]) ].

Definition default_arguments : arguments :=
  {| detailed := false; conflicts_only := false; skip_xcodes := false |}.

(** No tool output, every fetch failed, no previous file. *)
Definition silent_world : world :=
  {| xcodes_cli := []; fetched := map (fun s => (s, [])) SOURCE_NAMES;
     version_urls := map (fun s => (s, [])) SOURCE_NAMES;
     previous := NoFile |}.

Definition record_of (ver : string) (sdk : option string) : resolution :=
  {| xcode := ver; ios_sdk := sdk;
     status := match sdk with Some _ => single_source | None => not_found end;
     chosen_from := option_map (fun _ => "apple_support") sdk;
     agreement := match sdk with Some _ => 1%Q | None => 0%Q end;
     sources := [] |}.

(** ** More of the source: helpers of the adapters *)

(** [_normalize_sdk] *)
Definition _normalize_sdk (ver : string) : string :=
  if contains_dot ver then ver else (ver ++ ".0")%string.

(** [str(n)] for an [int]. *)
Definition py_str (n : Z) : string :=
  DecimalString.NilZero.string_of_int (Z.to_int n).

(** [_make_slug]: the version string and the slug of the release-note
    URL. *)
Definition _make_slug (major minor patch : Z) : string * string :=
  if Z.eqb minor 0 && Z.eqb patch 0
  then ((py_str major ++ ".0")%string, py_str major)
  else if Z.eqb patch 0
  then ((py_str major ++ "." ++ py_str minor)%string,
        (py_str major ++ "_" ++ py_str minor)%string)
  else ((py_str major ++ "." ++ py_str minor ++ "." ++ py_str patch)%string,
        (py_str major ++ "_" ++ py_str minor ++ "_" ++ py_str patch)%string).


(** *** [get_xcodes_versions]

    What running [xcodes list] came to: the tool is missing, it timed out,
    or it printed something in which [re.findall] found the given
    matches, in order. *)
Inductive xcodes_run : Type :=
| XcodesMissing
| XcodesTimedOut
| XcodesPrinted (found : list string).

(** One turn of the loop; the state is ([seen], [unique]). *)
Definition xcodes_step (st : list string * list string) (v : string)
  : list string * list string :=
  let n := _normalize_xcode_ver v in
  if existsb (String.eqb n) (fst st) then st
  else (set_add (fst st) n, snd st ++ [n]).

Definition get_xcodes_versions (r : xcodes_run) : list string :=
  match r with
  | XcodesMissing => []
  | XcodesTimedOut => []
  | XcodesPrinted found => snd (fold_left xcodes_step found ([], []))
  end.

(** *** [_parse_xcodereleases_json]

    One entry of [data.json], with the fields the parser reads and the
    types they have in that file: [version.number] (a string, if present),
    the truth values of [version.release.release], [.beta] and [.rc], and
    the ["number"] fields of the dictionaries in [sdks.iOS]. *)
Record release_entry : Type := {
  version_number : option string;
  release_release : bool;
  release_beta : bool;
  release_rc : bool;
  sdks_iOS : list (option string)
}.

Definition get_default (o : option string) (default : string) : string :=
  match o with
  | Some s => s
  | None => default
  end.

(** [{**a, **b}] *)
Definition merge {V} (a b : dict V) : dict V :=
  fold_left (fun d kv => set d (fst kv) (snd kv)) b a.

(** One turn of the loop over the entries; the state is
    ([stable], [non_stable]). *)
Definition xcodereleases_step (st : dict string * dict string)
    (entry : release_entry) : dict string * dict string :=
  let xcode_ver := _normalize_xcode_ver (get_default (version_number entry) "") in
  match sdks_iOS entry with
  | [] => st
  | first :: _ =>
      if negb (truthy xcode_ver) then st
      else
        let ios_sdk_raw := get_default first "" in
        if negb (truthy ios_sdk_raw) then st
        else
          let ios_sdk := _normalize_sdk ios_sdk_raw in
          let is_stable :=
            release_release entry
            && negb (release_beta entry || release_rc entry) in
          if is_stable
          then (setdefault (fst st) xcode_ver ios_sdk, snd st)
          else (fst st, setdefault (snd st) xcode_ver ios_sdk)
  end.

(** The mapping returned, and [_VERSION_URLS[source_name]] after the
    call ([ver_urls] is its content before). *)
Definition _parse_xcodereleases_json (entries : list release_entry)
    (ver_urls : dict string) (url : string) : dict string * dict string :=
  let st := fold_left xcodereleases_step entries ([], []) in
  let merged := merge (snd st) (fst st) in
  (merged, fold_left (fun urls xver => set urls xver url) (keys merged) ver_urls).

(** What an entry adds: its version, its SDK and whether it is a stable
    release; [None] for an entry the loop skips. *)
Definition usable_entry (e : release_entry) : option (string * string * bool) :=
  match sdks_iOS e with
  | [] => None
  | first :: _ =>
      let raw := get_default first "" in
      if truthy raw
      then Some (_normalize_xcode_ver (get_default (version_number e) ""),
                 _normalize_sdk raw,
                 release_release e && negb (release_beta e || release_rc e))
      else None
  end.

(** ** More of the source: the files [main] writes *)

(** What [json.loads] returns for the file [write_json] wrote. *)
Definition json_of_flat (flat : dict string) : json_value :=
  JObject (map (fun kv => (fst kv, JString (snd kv))) flat).

(** What [json.loads] returns for the file [write_json_detailed] wrote:
    the metadata block, with ["source_urls"] added, and the array of
    rows.  Numbers and arrays are [JOther]. *)
Definition json_of_detailed (generated_at : string) : json_value :=
  JObject
    [ ("metadata",
       JObject [ ("generated_at", JString generated_at);
                 ("total_versions", JOther); ("consensus", JOther);
                 ("single_source", JOther); ("conflicts", JOther);
                 ("not_found", JOther); ("coverage_pct", JOther);
                 ("sources", JOther);
                 ("source_urls", json_of_flat SOURCE_URLS) ]);
      ("results", JOther) ].

(** The content of [args.json] after a run that got past the universe
    check. *)
Definition file_after (generated_at : string) (out : written) : json_value :=
  match out with
  | FlatFiles flat => json_of_flat flat
  | DetailedFiles _ => json_of_detailed generated_at
  end.

(** The same inputs, met with another file at [args.json]. *)
Definition with_previous (w : world) (prev : previous_file) : world :=
  {| xcodes_cli := xcodes_cli w; fetched := fetched w;
     version_urls := version_urls w; previous := prev |}.

(** The same inputs, the fetch tasks completing in another order. *)
Definition with_fetched (w : world) (f : list (string * dict string)) : world :=
  {| xcodes_cli := xcodes_cli w; fetched := f;
     version_urls := version_urls w; previous := previous w |}.


(** The sources as [main] passes them to [cross_reference]. *)
Definition engine_sources (w : world) : dict (dict string) :=
  ordered_sources (raw_sources (fetched w)).

(** The version universe of a run. *)
Definition universe (args : arguments) (w : world) : list string :=
  all_versions (if skip_xcodes args then [] else xcodes_cli w)
               (engine_sources w).

(** Decimal digits only. *)
Fixpoint all_digits (s : string) : bool :=
  match s with
  | EmptyString => true
  | String c rest =>
      match digit_of c with
      | Some _ => all_digits rest
      | None => false
      end
  end.

(** Whether the loop takes [e] as an entry for version [k] of the given
    stability, and the SDK it then records. *)
Definition entry_for (k : string) (stable : bool) (e : release_entry) : bool :=
  match usable_entry e with
  | Some (v, _, st) => String.eqb v k && Bool.eqb st stable
  | None => false
  end.

Definition entry_sdk (e : release_entry) : option string :=
  option_map (fun t => snd (fst t)) (usable_entry e).

(** The SDK of the first entry for [k] of the given stability. *)
Definition first_entry_sdk (k : string) (stable : bool)
    (entries : list release_entry) : option string :=
  match find (entry_for k stable) entries with
  | Some e => entry_sdk e
  | None => None
  end.

(** Every key and every value has a dot. *)
Definition dotted_entries (d : dict string) : Prop :=
  forall k v, In (k, v) d -> contains_dot k = true /\ contains_dot v = true.

(** The number a string of decimal digits adds to [acc], read from the
    most significant digit. *)
Fixpoint uint_value (d : Decimal.uint) (acc : Z) : Z :=
  match d with
  | Decimal.Nil => acc
  | Decimal.D0 l => uint_value l (10 * acc)%Z
  | Decimal.D1 l => uint_value l (10 * acc + 1)%Z
  | Decimal.D2 l => uint_value l (10 * acc + 2)%Z
  | Decimal.D3 l => uint_value l (10 * acc + 3)%Z
  | Decimal.D4 l => uint_value l (10 * acc + 4)%Z
  | Decimal.D5 l => uint_value l (10 * acc + 5)%Z
  | Decimal.D6 l => uint_value l (10 * acc + 6)%Z
  | Decimal.D7 l => uint_value l (10 * acc + 7)%Z
  | Decimal.D8 l => uint_value l (10 * acc + 8)%Z
  | Decimal.D9 l => uint_value l (10 * acc + 9)%Z
  end.

(** No white space anywhere. *)
Fixpoint spaceless (s : string) : bool :=
  match s with
  | EmptyString => true
  | String c rest => negb (is_space c) && spaceless rest
  end.

(** *** The merge loop of [source_apple_docs_json]

    One completed probe: the version, the SDK [_first_ios_sdk] found in
    the document ([None] for a failed fetch or no match) and the URL
    fetched.  The loop takes the probes in completion order; the state is
    ([result], [_VERSION_URLS["apple_docs_json"]]). *)
Definition apple_docs_step (st : dict string * dict string)
    (probe : string * option string * string) : dict string * dict string :=
  let xcode_ver := fst (fst probe) in
  let fetched_url := snd probe in
  match snd (fst probe) with
  | None => st
  | Some ios_sdk =>
      if truthy ios_sdk then
        let stored := match get (fst st) xcode_ver with
                      | Some v => v
                      | None => ios_sdk
                      end in
        (setdefault (fst st) xcode_ver ios_sdk,
         if String.eqb stored ios_sdk
         then setdefault (snd st) xcode_ver fetched_url
         else snd st)
      else st
  end.

Definition apple_docs_merge (probes : list (string * option string * string))
    (ver_urls : dict string) : dict string * dict string :=
  fold_left apple_docs_step probes ([], ver_urls).

(** The SDK of the first probe of [k] that found one. *)
Definition first_probe_sdk (k : string)
    (probes : list (string * option string * string)) : option string :=
  match find (fun p => String.eqb (fst (fst p)) k
                       && match snd (fst p) with
                          | Some sdk => truthy sdk
                          | None => false
                          end) probes with
  | Some p => snd (fst p)
  | None => None
  end.



(** Case analysis on a position [i] of a concrete list, from
    [H : nth_error l i = Some x]. *)
Ltac enumerate_rank H i :=
  repeat (destruct i as [|i]; [injection H as <- | simpl in H]);
  try (destruct i; discriminate H).

(** * Properties *)

(** ** Facts about dictionaries *)

Module PyDictFacts.

Section Facts.
Context {V : Type}.
Implicit Types (d : dict V) (k : string) (v : V).

Lemma get_In d k v : get d k = Some v -> In (k, v) d.
Proof.
  induction d as [|[k' v'] d IH]; simpl; [discriminate|].
  destruct (String.eqb_spec k' k) as [->|Hne].
  - intros [= ->]. now left.
  - intros H. right. now apply IH.
Qed.

Lemma get_None d k : get d k = None <-> ~ In k (keys d).
Proof.
  induction d as [|[k' v'] d IH]; simpl.
  - tauto.
  - destruct (String.eqb_spec k' k) as [->|Hne].
    + split; [discriminate | intros H; exfalso; apply H; now left].
    + rewrite IH. split; [intros H [E|I]; tauto | tauto].
Qed.

Lemma get_Some_key d k v : get d k = Some v -> In k (keys d).
Proof.
  intros H. apply get_In in H.
  change k with (fst (k, v)). now apply in_map.
Qed.

Lemma In_key_get d k : In k (keys d) -> exists v, get d k = Some v.
Proof.
  intros H. destruct (get d k) as [v|] eqn:E; [now exists v|].
  apply get_None in E. contradiction.
Qed.

Lemma In_get d k v : wf d -> In (k, v) d -> get d k = Some v.
Proof.
  unfold wf. induction d as [|[k' v'] d IH]; simpl; [tauto|].
  intros Hnd [E|I].
  - injection E as -> ->. now rewrite String.eqb_refl.
  - inversion Hnd as [|? ? Hnotin Hnd']; subst.
    destruct (String.eqb_spec k' k) as [->|Hne].
    + exfalso. apply Hnotin. change k with (fst (k, v)). now apply in_map.
    + now apply IH.
Qed.

Lemma get_app d1 d2 k :
  get (d1 ++ d2) k = match get d1 k with
                     | Some v => Some v
                     | None => get d2 k
                     end.
Proof.
  induction d1 as [|[k' v'] d1 IH]; simpl; [reflexivity|].
  now destruct (String.eqb k' k).
Qed.

Lemma set_fresh d k v : ~ In k (keys d) -> set d k v = d ++ [(k, v)].
Proof.
  induction d as [|[k' v'] d IH]; simpl; [reflexivity|].
  intros H. destruct (String.eqb_spec k' k) as [->|Hne].
  - exfalso. apply H. now left.
  - f_equal. apply IH. tauto.
Qed.

Lemma keys_set_present d k v : In k (keys d) -> keys (set d k v) = keys d.
Proof.
  induction d as [|[k' v'] d IH]; simpl; [tauto|].
  intros H. destruct (String.eqb_spec k' k) as [->|Hne]; simpl.
  - reflexivity.
  - f_equal. apply IH. tauto.
Qed.

Lemma keys_set d k v :
  keys (set d k v) = if mem d k then keys d else keys d ++ [k].
Proof.
  unfold mem. destruct (get d k) as [x|] eqn:E.
  - apply keys_set_present. now apply get_Some_key in E.
  - apply get_None in E. rewrite (set_fresh _ _ _ E).
    unfold keys. now rewrite map_app.
Qed.

Lemma get_set d k v k' :
  get (set d k v) k' = if String.eqb k k' then Some v else get d k'.
Proof.
  induction d as [|[k0 v0] d IH]; simpl.
  - reflexivity.
  - destruct (String.eqb_spec k0 k) as [->|Hne]; simpl.
    + now destruct (String.eqb k k').
    + rewrite IH. destruct (String.eqb_spec k0 k') as [->|Hne'].
      * destruct (String.eqb_spec k k') as [->|]; [congruence|reflexivity].
      * reflexivity.
Qed.

Lemma wf_set d k v : wf d -> wf (set d k v).
Proof.
  unfold wf. intros H. rewrite keys_set. unfold mem.
  destruct (get d k) eqn:E; [assumption|].
  apply get_None in E.
  apply NoDup_app; [assumption | repeat constructor; auto | ].
  - intros x Hx [<-|[]]. contradiction.
Qed.

Lemma wf_setdefault d k v : wf d -> wf (setdefault d k v).
Proof.
  unfold setdefault. intros H. destruct (get d k) eqn:E; [assumption|].
  rewrite <- (set_fresh d k v) by now apply get_None.
  now apply wf_set.
Qed.

Lemma get_setdefault d k v k' :
  get (setdefault d k v) k' =
  match get d k' with
  | Some x => Some x
  | None => if String.eqb k k' then Some v else None
  end.
Proof.
  unfold setdefault. destruct (get d k) as [x|] eqn:E.
  - destruct (get d k') eqn:E'; [reflexivity|].
    destruct (String.eqb_spec k k') as [->|]; congruence.
  - rewrite get_app. simpl. reflexivity.
Qed.

Lemma In_set d k v kv :
  In kv (set d k v) -> kv = (k, v) \/ In kv d.
Proof.
  induction d as [|[k0 v0] d IH]; simpl.
  - intros [<-|[]]. now left.
  - destruct (String.eqb_spec k0 k) as [->|Hne]; simpl.
    + intros [<-|H]; auto.
    + intros [<-|H]; auto. destruct (IH H); auto.
Qed.

End Facts.

End PyDictFacts.

Import PyDictFacts.

(** ** Version normalisation *)

Lemma contains_dot_In s : contains_dot s = true <-> In "."%char (chars s).
Proof.
  unfold chars. induction s as [|c s IH]; simpl.
  - split; [discriminate | tauto].
  - destruct (Ascii.eqb_spec c "."%char) as [->|Hne].
    + split; auto.
    + rewrite IH. split; [auto | intros [E|I]; [contradiction | assumption]].
Qed.

Lemma contains_dot_false s : contains_dot s = false <-> dotless s.
Proof.
  unfold dotless. rewrite <- contains_dot_In.
  destruct (contains_dot s); split; congruence.
Qed.

Lemma contains_dot_append s t :
  contains_dot (s ++ t) = contains_dot s || contains_dot t.
Proof.
  induction s as [|c s IH]; simpl; [reflexivity|].
  now destruct (Ascii.eqb c "."%char).
Qed.

Lemma normalize_has_dot v : contains_dot (_normalize_xcode_ver v) = true.
Proof.
  unfold _normalize_xcode_ver. destruct (contains_dot v) eqn:E; [assumption|].
  rewrite contains_dot_append, E. reflexivity.
Qed.

Lemma normalize_fixed v : contains_dot v = true -> _normalize_xcode_ver v = v.
Proof. unfold _normalize_xcode_ver. now intros ->. Qed.

(** C8.  A version without a dot gets [".0"] appended, a version with a dot
    is returned as it is, and normalising twice is the same as normalising
    once. *)
Theorem normalize_xcode_ver_spec (v : string) :
  (dotless v -> _normalize_xcode_ver v = (v ++ ".0")%string)
  /\ (~ dotless v -> _normalize_xcode_ver v = v)
  /\ _normalize_xcode_ver (_normalize_xcode_ver v) = _normalize_xcode_ver v.
Proof.
  split; [|split].
  - intros H. apply contains_dot_false in H.
    unfold _normalize_xcode_ver. now rewrite H.
  - intros H. apply normalize_fixed.
    destruct (contains_dot v) eqn:E; [reflexivity|].
    exfalso. apply H. now apply contains_dot_false.
  - apply normalize_fixed, normalize_has_dot.
Qed.

Lemma normalize_xcode_ver_spec_witness :
  dotless "9" /\ _normalize_xcode_ver "9" = "9.0"
  /\ ~ dotless "9.3" /\ _normalize_xcode_ver "9.3" = "9.3".
Proof.
  assert (D : dotless "9") by (apply contains_dot_false; reflexivity).
  assert (N : ~ dotless "9.3")
    by (intros H; apply contains_dot_false in H; discriminate H).
  split; [exact D|]. split.
  - exact (proj1 (normalize_xcode_ver_spec "9") D).
  - split; [exact N|].
    exact (proj1 (proj2 (normalize_xcode_ver_spec "9.3")) N).
Defined.

(** *** [_normalize_source_keys] *)

Lemma normalize_fold_get data : forall acc k,
  get (fold_left normalize_step data acc) k =
  match get acc k with
  | Some v => Some v
  | None => option_map snd (first_normalizing_to k data)
  end.
Proof.
  induction data as [|[k0 v0] data IH]; intros acc k; simpl.
  - now destruct (get acc k).
  - rewrite IH. unfold normalize_step at 1. rewrite get_setdefault. simpl.
    destruct (get acc k); [reflexivity|].
    now destruct (String.eqb (_normalize_xcode_ver k0) k).
Qed.

Lemma normalize_fold_wf data : forall acc,
  wf acc -> wf (fold_left normalize_step data acc).
Proof.
  induction data as [|kv data IH]; intros acc H; simpl; [assumption|].
  apply IH. now apply wf_setdefault.
Qed.

(** C10.  In the result of [_normalize_source_keys] every key has a dot,
    every entry is the normalisation of an input entry with the same value,
    and the value stored under a key is the value of the first input entry,
    in iteration order, whose key normalises to it; later colliding entries
    are dropped. *)
Theorem normalize_source_keys_spec (data : dict string) :
  let out := _normalize_source_keys data in
  wf out
  /\ (forall k, In k (keys out) -> In "."%char (chars k))
  /\ (forall k v, In (k, v) out ->
        exists k0, In (k0, v) data /\ _normalize_xcode_ver k0 = k)
  /\ (forall k, get out k = option_map snd (first_normalizing_to k data))
  /\ _normalize_source_keys [("9", "11.0"); ("9.0", "11.2"); ("10", "12.0")]
     = [("9.0", "11.0"); ("10.0", "12.0")].
Proof.
  intros out.
  assert (Hwf : wf out) by (apply normalize_fold_wf; constructor).
  assert (Hget : forall k, get out k = option_map snd (first_normalizing_to k data))
    by (intros k; unfold out, _normalize_source_keys;
        now rewrite normalize_fold_get).
  assert (Hin : forall k v, In (k, v) out ->
            exists k0, In (k0, v) data /\ _normalize_xcode_ver k0 = k).
  { intros k v H. apply (In_get _ _ _ Hwf) in H. rewrite Hget in H.
    unfold first_normalizing_to in H.
    destruct (find _ data) as [[k0 v0]|] eqn:F; [|discriminate].
    simpl in H. injection H as ->.
    apply find_some in F. destruct F as [I E]. simpl in E.
    apply String.eqb_eq in E. now exists k0. }
  repeat split; auto.
  intros k H. apply In_key_get in H. destruct H as [v H].
  apply get_In, Hin in H. destruct H as (k0 & _ & <-).
  apply contains_dot_In, normalize_has_dot.
Qed.

(** ** The first loop of [cross_reference] *)

Section Collect.
Variable ver : string.

Lemma collect_fold_found l : forall st,
  NoDup (keys l) ->
  (forall k, In k (keys l) -> ~ In k (keys (snd st))) ->
  snd (fold_left (collect_step ver) l st) = snd st ++ reporting ver l.
Proof.
  induction l as [|[s d] l IH]; intros st Hnd Hfresh; simpl.
  - now rewrite app_nil_r.
  - inversion Hnd as [|? ? Hs Hnd']; subst.
    assert (Hs' : ~ In s (keys (snd st))) by (apply Hfresh; now left).
    rewrite IH; auto.
    + unfold collect_step; simpl.
      destruct (lookup_source d ver) as [v|]; simpl; [|reflexivity].
      rewrite (set_fresh _ _ _ Hs'). now rewrite <- app_assoc.
    + intros k Hk. unfold collect_step; simpl.
      assert (Hk' : ~ In k (keys (snd st))) by (apply Hfresh; now right).
      destruct (lookup_source d ver) as [v|]; simpl; [|assumption].
      rewrite (set_fresh _ _ _ Hs'). unfold keys. rewrite map_app.
      intros H. apply in_app_or in H. destruct H as [H|[<-|[]]]; auto.
Qed.

Lemma collect_fold_In l : forall st s v,
  In (s, v) (snd (fold_left (collect_step ver) l st)) ->
  In (s, v) (snd st)
  \/ exists d, In (s, d) l /\ lookup_source d ver = Some v.
Proof.
  induction l as [|[s0 d0] l IH]; intros st s v H; simpl in *; [now left|].
  apply IH in H. destruct H as [H|(d & I & E)].
  - unfold collect_step in H; simpl in H.
    destruct (lookup_source d0 ver) as [v0|] eqn:E0; simpl in H; [|now left].
    apply In_set in H. destruct H as [[= -> ->]|H]; [|now left].
    right. exists d0. auto.
  - right. exists d. auto.
Qed.

Lemma collect_fold_keys l : forall st s,
  In s (keys (snd st))
  \/ (exists d v, In (s, d) l /\ lookup_source d ver = Some v) ->
  In s (keys (snd (fold_left (collect_step ver) l st))).
Proof.
  induction l as [|[s0 d0] l IH]; intros st s H; simpl.
  - destruct H as [H|(d & v & [] & _)]. assumption.
  - apply IH. unfold collect_step at 1; simpl.
    destruct H as [H|(d & v & [[= -> ->]|I] & E)].
    + left. destruct (lookup_source d0 ver); simpl; [|assumption].
      rewrite keys_set. destruct (mem (snd st) s0); [assumption|].
      apply in_or_app. now left.
    + left. rewrite E. simpl. rewrite keys_set.
      unfold mem. destruct (get (snd st) s) eqn:G.
      * now apply get_Some_key in G.
      * apply in_or_app. right. now left.
    + right. exists d, v. auto.
Qed.

(** For a dictionary of sources, [found_values] lists the reporting
    sources in order. *)
Lemma found_values_reporting srcs :
  wf srcs -> found_values ver srcs = reporting ver srcs.
Proof.
  intros H. unfold found_values, collect.
  rewrite collect_fold_found; auto.
Qed.

Lemma found_values_In srcs s v :
  In (s, v) (found_values ver srcs) ->
  exists d, In (s, d) srcs /\ lookup_source d ver = Some v.
Proof.
  intros H. apply collect_fold_In in H. destruct H as [[]|H]. exact H.
Qed.

Lemma found_values_key srcs s d v :
  In (s, d) srcs -> lookup_source d ver = Some v ->
  In s (keys (found_values ver srcs)).
Proof.
  intros I E. apply collect_fold_keys. right. exists d, v. auto.
Qed.

Lemma found_values_empty srcs :
  found_values ver srcs = []
  <-> (forall s d, In (s, d) srcs -> lookup_source d ver = None).
Proof.
  split.
  - intros H s d I. destruct (lookup_source d ver) as [v|] eqn:E; [|reflexivity].
    pose proof (found_values_key _ _ _ _ I E) as K. rewrite H in K. destruct K.
  - intros H. destruct (found_values ver srcs) as [|[s v] rest] eqn:F; [reflexivity|].
    assert (I : In (s, v) (found_values ver srcs)) by (rewrite F; now left).
    apply found_values_In in I. destruct I as (d & I & E).
    rewrite (H _ _ I) in E. discriminate.
Qed.

End Collect.

(** ** The set of distinct values *)

Lemma unique_values_In found v :
  In v (unique_values found) <-> In v (values found).
Proof. apply nodup_In. Qed.

Lemma unique_values_nil found : unique_values found = [] <-> found = [].
Proof.
  split.
  - intros H. destruct found as [|[s v] rest]; [reflexivity|].
    assert (I : In v (unique_values ((s, v) :: rest)))
      by (apply unique_values_In; now left).
    rewrite H in I. destruct I.
  - now intros ->.
Qed.

Lemma unique_values_single found u :
  unique_values found = [u] -> forall v, In v (values found) -> v = u.
Proof.
  intros H v I. apply unique_values_In in I. rewrite H in I.
  destruct I as [<-|[]]. reflexivity.
Qed.

Lemma unique_values_many found a b rest :
  unique_values found = a :: b :: rest ->
  a <> b /\ In a (values found) /\ In b (values found).
Proof.
  intros H.
  pose proof (NoDup_nodup string_dec (values found)) as N.
  fold (unique_values found) in N. rewrite H in N.
  inversion N as [|? ? Ha _]; subst.
  repeat split.
  - intros ->. apply Ha. now left.
  - apply unique_values_In. rewrite H. now left.
  - apply unique_values_In. rewrite H. right. now left.
Qed.

Lemma In_values_pair {V} (d : dict V) v :
  In v (values d) -> exists k, In (k, v) d.
Proof.
  unfold values. intros H. apply in_map_iff in H.
  destruct H as ([k v'] & E & I). simpl in E. subst. now exists k.
Qed.

Lemma first_key_nonempty {V} (d : dict V) :
  d <> [] -> exists k v, first_key d = Some k /\ get d k = Some v.
Proof.
  destruct d as [|[k v] rest]; [congruence|]. intros _.
  exists k, v. simpl. now rewrite String.eqb_refl.
Qed.

Lemma next_or_holds {A} (p : A -> bool) names default :
  p default = true -> p (next_or p names default) = true.
Proof.
  intros H. unfold next_or. destruct (find p names) eqn:F; [|assumption].
  now apply find_some in F.
Qed.

(** ** Shape of the result of [cross_reference] *)

(** The call never raises, and its result is one of three records,
    selected by the number of distinct values. *)
Lemma cross_reference_cases urls ver srcs :
  let found := found_values ver srcs in
  (found = []
   /\ cross_reference urls ver srcs = Some (not_found_record urls ver srcs))
  \/ (exists u default,
        unique_values found = [u] /\ first_key found = Some default
        /\ cross_reference urls ver srcs
           = Some (agreed_record urls ver srcs found u default))
  \/ (exists a b rest default sdk,
        unique_values found = a :: b :: rest
        /\ first_key found = Some default
        /\ get found (next_or (mem found) SOURCE_NAMES default) = Some sdk
        /\ cross_reference urls ver srcs
           = Some (conflict_record urls ver srcs found
                     (next_or (mem found) SOURCE_NAMES default) sdk)).
Proof.
  intros found. unfold cross_reference. fold found.
  destruct (unique_values found) as [|a [|b rest]] eqn:U.
  - left. split; [now apply unique_values_nil | reflexivity].
  - right; left.
    assert (N : found <> []) by (intros E; rewrite E in U; discriminate).
    destruct (first_key_nonempty _ N) as (k & v & K & _).
    exists a, k. rewrite K. auto.
  - right; right.
    assert (N : found <> []) by (intros E; rewrite E in U; discriminate).
    destruct (first_key_nonempty _ N) as (k & v & K & G).
    rewrite K.
    assert (M : mem found (next_or (mem found) SOURCE_NAMES k) = true)
      by (apply next_or_holds; unfold mem; now rewrite G).
    unfold mem at 1 in M.
    destruct (get found (next_or (mem found) SOURCE_NAMES k)) as [sdk|] eqn:G';
      [|discriminate M].
    exists a, b, rest, k, sdk. auto.
Qed.

(** ** Reporting sources *)

Lemma reporting_keys_incl ver srcs s :
  In s (keys (reporting ver srcs)) -> In s (keys srcs).
Proof.
  induction srcs as [|[s0 d0] srcs IH]; simpl; [tauto|].
  unfold keys. rewrite map_app. intros H. apply in_app_or in H.
  destruct H as [H|H]; [|right; now apply IH].
  destruct (lookup_source d0 ver); simpl in H; [|destruct H].
  destruct H as [<-|[]]. now left.
Qed.

Lemma reporting_wf ver srcs : wf srcs -> wf (reporting ver srcs).
Proof.
  unfold wf. induction srcs as [|[s0 d0] srcs IH]; simpl; intros H.
  - constructor.
  - inversion H as [|? ? Hs Hnd]; subst.
    destruct (lookup_source d0 ver); simpl; [|now apply IH].
    constructor; [|now apply IH].
    intros I. apply Hs. now apply (reporting_keys_incl ver).
Qed.

Lemma get_reporting ver srcs s :
  wf srcs -> get (reporting ver srcs) s = source_value srcs ver s.
Proof.
  unfold wf, source_value.
  induction srcs as [|[s0 d0] srcs IH]; simpl; intros H; [reflexivity|].
  inversion H as [|? ? Hs Hnd]; subst.
  rewrite get_app, (IH Hnd).
  destruct (String.eqb_spec s0 s) as [->|Hne].
  - destruct (lookup_source d0 ver) as [v|]; simpl.
    + now rewrite String.eqb_refl.
    + destruct (get srcs s) eqn:G; [|reflexivity].
      apply get_Some_key in G. contradiction.
  - destruct (lookup_source d0 ver) as [v|]; simpl; [|reflexivity].
    destruct (String.eqb_spec s0 s); [contradiction|reflexivity].
Qed.

Lemma get_found_values ver srcs s :
  wf srcs -> get (found_values ver srcs) s = source_value srcs ver s.
Proof.
  intros H. rewrite found_values_reporting by assumption.
  now apply get_reporting.
Qed.

Lemma source_value_In srcs ver s d :
  wf srcs -> In (s, d) srcs -> source_value srcs ver s = lookup_source d ver.
Proof.
  intros W I. unfold source_value. now rewrite (In_get _ _ _ W I).
Qed.

(** ** Lookup with the major.minor fallback *)

(** C5.  A version of exactly three components that is missing from a
    source's map is looked up again under its first two components, and
    the source contributes what that finds; a direct entry wins and other
    versions have no second lookup.  A record is [not_found] exactly when
    no source contributes.  ["12.5.1"] falls back to ["12.5"]. *)
Theorem fallback_lookup_spec :
  (forall src_data ver a b c,
      split_dot ver = [a; b; c] -> get src_data ver = None ->
      lookup_source src_data ver = get src_data (a ++ "." ++ b)%string)
  /\ (forall src_data ver v,
        get src_data ver = Some v -> lookup_source src_data ver = Some v)
  /\ (forall src_data ver,
        length (split_dot ver) <> 3 ->
        lookup_source src_data ver = get src_data ver)
  /\ (forall ver srcs s d,
        wf srcs -> In (s, d) srcs ->
        get (found_values ver srcs) s = lookup_source d ver)
  /\ (forall urls ver srcs,
        exists r, cross_reference urls ver srcs = Some r
          /\ (status r = not_found
              <-> forall s d, In (s, d) srcs -> lookup_source d ver = None))
  /\ lookup_source [("12.5", "18.2")] "12.5.1" = Some "18.2".
Proof.
  repeat apply conj.
  - intros src_data ver a b c S G. unfold lookup_source. rewrite G, S. reflexivity.
  - intros src_data ver v G. unfold lookup_source. now rewrite G.
  - intros src_data ver L. unfold lookup_source.
    destruct (get src_data ver); [reflexivity|].
    destruct (Nat.eqb_spec (length (split_dot ver)) 3); [contradiction|reflexivity].
  - intros ver srcs s d W I. rewrite get_found_values by assumption.
    now apply source_value_In.
  - intros urls ver srcs.
    destruct (cross_reference_cases urls ver srcs)
      as [[F E]|[(u & k & U & K & E)|(a & b & rest & k & sdk & U & K & G & E)]].
    + eexists. split; [exact E|]. simpl.
      split; [intros _; now apply found_values_empty | reflexivity].
    + eexists. split; [exact E|]. simpl.
      assert (N : found_values ver srcs <> [])
        by (intros F; rewrite F in U; discriminate).
      split.
      * destruct (Nat.ltb 1 _); discriminate.
      * intros H. apply found_values_empty in H. contradiction.
    + eexists. split; [exact E|]. simpl.
      assert (N : found_values ver srcs <> [])
        by (intros F; rewrite F in U; discriminate).
      split; [discriminate|].
      intros H. apply found_values_empty in H. contradiction.
  - reflexivity.
Qed.

Lemma fallback_lookup_spec_witness :
  split_dot "12.5.1" = ["12"; "5"; "1"]
  /\ get [("12.5", "18.2")] "12.5.1" = None
  /\ lookup_source [("12.5", "18.2")] "12.5.1" = Some "18.2".
Proof.
  split; [reflexivity|]. split; [reflexivity|].
  exact (proj1 fallback_lookup_spec [("12.5", "18.2")] "12.5.1" "12" "5" "1"
           eq_refl eq_refl).
Defined.

(** ** The resolved value comes from a source *)

(** C7.  [cross_reference] always returns a record, and a resolved SDK in
    it is the value some source offers for that version: nothing is made
    up. *)
Theorem resolved_value_is_reported urls ver srcs :
  exists r, cross_reference urls ver srcs = Some r
    /\ forall v, ios_sdk r = Some v ->
         exists s d, In (s, d) srcs /\ lookup_source d ver = Some v.
Proof.
  destruct (cross_reference_cases urls ver srcs)
    as [[F E]|[(u & k & U & K & E)|(a & b & rest & k & sdk & U & K & G & E)]];
    eexists; (split; [exact E|]); simpl; intros v H.
  - discriminate.
  - injection H as <-.
    assert (I : In u (values (found_values ver srcs)))
      by (apply unique_values_In; rewrite U; now left).
    apply In_values_pair in I. destruct I as [s I].
    apply found_values_In in I. destruct I as (d & I & L). now exists s, d.
  - injection H as <-. apply get_In, found_values_In in G.
    destruct G as (d & I & L). eauto.
Qed.

Lemma resolved_value_is_reported_witness :
  exists s d, In (s, d) three_way_split /\ lookup_source d "9.0" = Some "11.0".
Proof.
  destruct (resolved_value_is_reported [] "9.0" three_way_split) as (r & E & H).
  apply H. injection E as <-. reflexivity.
Defined.

(** ** Status classification *)

Lemma two_members_length {A} (l : list A) a b :
  In a l -> In b l -> a <> b -> 2 <= length l.
Proof.
  destruct l as [|x [|y l]]; simpl; try tauto; [|lia].
  intros [<-|[]] [<-|[]] H. congruence.
Qed.

Lemma values_length {V} (d : dict V) : length (values d) = length d.
Proof. apply length_map. Qed.

Lemma identical_not_distinct vs : all_identical vs -> ~ two_distinct vs.
Proof. intros H (a & b & Ia & Ib & N). apply N. now apply H. Qed.

(** C2.  The status is [consensus] exactly when two or more sources
    report and all their values are the same, [single_source] exactly when
    one source reports, [conflict] exactly when two or more report and two
    of the values differ, and [not_found] exactly when none reports. *)
Theorem status_classification urls ver srcs :
  wf srcs ->
  exists r, cross_reference urls ver srcs = Some r
    /\ (status r = consensus
        <-> 2 <= n_reporting ver srcs
            /\ all_identical (reported_values ver srcs))
    /\ (status r = single_source <-> n_reporting ver srcs = 1)
    /\ (status r = conflict
        <-> 2 <= n_reporting ver srcs
            /\ two_distinct (reported_values ver srcs))
    /\ (status r = not_found <-> n_reporting ver srcs = 0).
Proof.
  intros W. unfold n_reporting, reported_values.
  rewrite <- (found_values_reporting ver srcs W).
  destruct (cross_reference_cases urls ver srcs)
    as [[F E]|[(u & k & U & K & E)|(a & b & rest & k & sdk & U & K & G & E)]];
    eexists; (split; [exact E|]); simpl.
  - rewrite F. simpl. repeat split; try discriminate; try lia; auto.
    all: intros [H _]; lia.
  - assert (Hid : all_identical (values (found_values ver srcs))).
    { intros x y Hx Hy. rewrite (unique_values_single _ _ U x Hx).
      now rewrite (unique_values_single _ _ U y Hy). }
    pose proof (identical_not_distinct _ Hid) as Hnd.
    assert (Hlen : 1 <= length (found_values ver srcs)).
    { destruct (found_values ver srcs); [discriminate U | simpl; lia]. }
    destruct (Nat.ltb_spec 1 (length (found_values ver srcs))) as [L|L].
    + repeat split; try discriminate; try lia; auto; try tauto.
    + repeat split; try discriminate; try lia; auto; try tauto.
  - destruct (unique_values_many _ _ _ _ U) as (Nab & Ia & Ib).
    assert (Hd : two_distinct (values (found_values ver srcs)))
      by (exists a, b; auto).
    assert (Hlen : 2 <= length (found_values ver srcs)).
    { rewrite <- values_length. exact (two_members_length _ _ _ Ia Ib Nab). }
    repeat split; try discriminate; try lia; auto.
    intros [_ Hid]. exfalso. now apply (identical_not_distinct _ Hid).
Qed.

Lemma status_classification_witness :
  wf three_way_split
  /\ exists r, cross_reference [] "9.0" three_way_split = Some r
       /\ (status r = conflict
           <-> 2 <= n_reporting "9.0" three_way_split
               /\ two_distinct (reported_values "9.0" three_way_split)).
Proof.
  assert (W : wf three_way_split).
  { unfold wf. simpl. repeat constructor; simpl; intuition discriminate. }
  split; [exact W|].
  destruct (status_classification [] "9.0" three_way_split W)
    as (r & E & _ & _ & H & _).
  exists r. split; [exact E | exact H].
Defined.

(** ** Conflicts are settled by authority *)

Lemma find_pointwise {A} (p q : A -> bool) l :
  (forall x, p x = q x) -> find p l = find q l.
Proof.
  intros H. induction l as [|x l IH]; simpl; [reflexivity|].
  rewrite H, IH. reflexivity.
Qed.

Lemma mem_found_offers ver srcs s :
  wf srcs -> mem (found_values ver srcs) s = offers srcs ver s.
Proof.
  intros W. unfold mem, offers. now rewrite get_found_values.
Qed.

Lemma found_key_ranked ver srcs k :
  wf srcs -> ranked srcs -> In k (keys (found_values ver srcs)) ->
  In k SOURCE_NAMES.
Proof.
  intros W R I. rewrite found_values_reporting in I by assumption.
  apply reporting_keys_incl in I.
  unfold ranked in R. rewrite Forall_forall in R. now apply R.
Qed.

(** C1.  When the status is [conflict], the chosen source is the first
    name of [SOURCE_NAMES] that offers a value for the version, whatever
    the other sources say, and the resolved SDK is the value of that
    source.  With a higher-ranked source giving 17.2 and a lower-ranked one
    17.0 for ["9.0"], the record is a conflict resolved to 17.2, chosen
    from the higher-ranked source, with agreement one half; a
    higher-ranked source also wins against two lower ones that agree. *)
Theorem conflict_resolved_by_authority :
  (forall urls ver srcs,
      wf srcs -> ranked srcs ->
      exists r, cross_reference urls ver srcs = Some r
        /\ (status r = conflict ->
            exists s v,
              first_authority srcs ver = Some s
              /\ chosen_from r = Some s
              /\ source_value srcs ver s = Some v
              /\ ios_sdk r = Some v))
  /\ (forall urls hi lo i j srcs,
        nth_error SOURCE_NAMES i = Some hi ->
        nth_error SOURCE_NAMES j = Some lo ->
        i < j ->
        srcs = two_sources hi lo "17.2" "17.0"
        \/ srcs = two_sources lo hi "17.0" "17.2" ->
        exists r, cross_reference urls "9.0" srcs = Some r
          /\ status r = conflict
          /\ ios_sdk r = Some "17.2"
          /\ chosen_from r = Some hi
          /\ agreement r = (1 # 2)%Q)
  /\ (forall urls,
        exists r, cross_reference urls "9.0" outvoted_authority = Some r
          /\ status r = conflict
          /\ ios_sdk r = Some "11.0"
          /\ chosen_from r = Some "apple_support").
Proof.
  split; [|split].
  - intros urls ver srcs W R.
    destruct (cross_reference_cases urls ver srcs)
      as [[F E]|[(u & k & U & K & E)|(a & b & rest & k & sdk & U & K & G & E)]];
      eexists; (split; [exact E|]); simpl.
    + discriminate.
    + destruct (Nat.ltb 1 _); discriminate.
    + intros _.
      set (found := found_values ver srcs) in *.
      assert (Hk : In k SOURCE_NAMES /\ mem found k = true).
      { destruct found as [|[k0 v0] rest0] eqn:F; [discriminate K|].
        injection K as <-. split.
        - apply (found_key_ranked ver srcs); auto.
          fold found. rewrite F. now left.
        - unfold mem. simpl. now rewrite String.eqb_refl. }
      destruct Hk as [Hin Hmem].
      destruct (find (mem found) SOURCE_NAMES) as [s|] eqn:Fd.
      * assert (Hc : next_or (mem found) SOURCE_NAMES k = s)
          by (unfold next_or; now rewrite Fd).
        rewrite Hc in *. exists s, sdk. repeat split.
        -- unfold first_authority. rewrite <- Fd. apply find_pointwise.
           intros x. symmetry. now apply mem_found_offers.
        -- rewrite <- G. symmetry. now apply get_found_values.
      * exfalso. pose proof (find_none _ _ Fd _ Hin) as C. congruence.
  - intros urls hi lo i j srcs Hi Hj Hlt Hs.
    enumerate_rank Hi i; enumerate_rank Hj j; try lia;
      destruct Hs as [-> | ->];
      (eexists; split; [reflexivity | repeat split; reflexivity]).
  - intros urls. eexists. split; [reflexivity | repeat split; reflexivity].
Qed.

Lemma conflict_resolved_by_authority_witness :
  wf three_way_split /\ ranked three_way_split
  /\ exists r, cross_reference [] "9.0" three_way_split = Some r
       /\ status r = conflict
       /\ exists s v,
            first_authority three_way_split "9.0" = Some s
            /\ chosen_from r = Some s
            /\ source_value three_way_split "9.0" s = Some v
            /\ ios_sdk r = Some v.
Proof.
  assert (W : wf three_way_split).
  { unfold wf. simpl. repeat constructor; simpl; intuition discriminate. }
  assert (R : ranked three_way_split).
  { unfold ranked. simpl. repeat constructor; simpl; tauto. }
  split; [exact W|]. split; [exact R|].
  destruct (proj1 conflict_resolved_by_authority [] "9.0" three_way_split W R)
    as (r & E & H).
  exists r. split; [exact E|].
  assert (S : status r = conflict) by (injection E as <-; reflexivity).
  split; [exact S | exact (H S)].
Defined.

(** ** Rounding to hundredths *)

Section Rounding.
Local Open Scope Q_scope.



Lemma floor_bounds q :
  inject_Z (Qfloor q) <= q /\ q < inject_Z (Qfloor q) + 1.
Proof.
  split; [apply Qfloor_le|].
  pose proof (Qlt_floor q) as H. rewrite inject_Z_plus in H. exact H.
Qed.

Lemma Z_le_of_Q_lt (a b : Z) : inject_Z a < inject_Z b + 1 -> (a <= b)%Z.
Proof.
  intros H. destruct (Z_le_gt_dec a b) as [L|G]; [exact L|].
  exfalso. assert (L : (b + 1 <= a)%Z) by lia.
  rewrite Zle_Qle, inject_Z_plus in L. change (inject_Z 1) with 1 in L. lra.
Qed.

Lemma inject_Z_pred z : inject_Z (z - 1) == inject_Z z - 1.
Proof.
  unfold Z.sub. rewrite inject_Z_plus, inject_Z_opp. reflexivity.
Qed.

(** A value above [z - 1/2] rounds to at least [z]. *)
Lemma round_half_even_ge q z :
  inject_Z z - (1 # 2) < q -> (z <= round_half_even q)%Z.
Proof.
  intros H. unfold round_half_even.
  destruct (floor_bounds q) as [Lo Hi].
  set (f := Qfloor q) in *.
  assert (Hf : (z - 1 <= f)%Z).
  { apply Z_le_of_Q_lt. rewrite inject_Z_pred. lra. }
  destruct (Z.eq_dec f (z - 1)) as [E|N].
  - assert (G : 1 # 2 < q - inject_Z f).
    { rewrite E, inject_Z_pred. lra. }
    destruct (q - inject_Z f ?= 1 # 2) eqn:C.
    + apply Qeq_alt in C. lra.
    + apply Qlt_alt in C. lra.
    + lia.
  - destruct (q - inject_Z f ?= 1 # 2); [destruct (Z.even f)| |]; lia.
Qed.

(** A value below [z + 1/2] rounds to at most [z]. *)
Lemma round_half_even_le q z :
  q < inject_Z z + (1 # 2) -> (round_half_even q <= z)%Z.
Proof.
  intros H. unfold round_half_even.
  destruct (floor_bounds q) as [Lo Hi].
  set (f := Qfloor q) in *.
  assert (Hf : (f <= z)%Z) by (apply Z_le_of_Q_lt; lra).
  destruct (Z.eq_dec f z) as [E|N].
  - assert (G : q - inject_Z f < 1 # 2) by (rewrite E; lra).
    destruct (q - inject_Z f ?= 1 # 2) eqn:C.
    + apply Qeq_alt in C. lra.
    + lia.
    + apply Qgt_alt in C. lra.
  - destruct (q - inject_Z f ?= 1 # 2); [destruct (Z.even f)| |]; lia.
Qed.

Lemma py_round2_value q :
  py_round2 q == inject_Z (round_half_even (q * 100)) / 100.
Proof. unfold py_round2. apply Qred_correct. Qed.

Lemma py_round2_between q (lo hi : Z) :
  inject_Z lo - (1 # 2) < q * 100 -> q * 100 < inject_Z hi + (1 # 2) ->
  inject_Z lo <= py_round2 q * 100 /\ py_round2 q * 100 <= inject_Z hi.
Proof.
  intros L H.
  assert (E : py_round2 q * 100 == inject_Z (round_half_even (q * 100)))
    by (rewrite py_round2_value; field).
  rewrite E.
  apply round_half_even_ge in L. apply round_half_even_le in H.
  now rewrite <- !Zle_Qle.
Qed.


Lemma py_round2_proper_fraction q :
  1 # 200 < q -> q < 199 # 200 -> 0 < py_round2 q /\ py_round2 q < 1.
Proof.
  intros L H.
  destruct (py_round2_between q 1 99) as [A B].
  - change (inject_Z 1) with 1. lra.
  - change (inject_Z 99) with 99. lra.
  - change (inject_Z 1) with 1 in A. change (inject_Z 99) with 99 in B.
    lra.
Qed.

(** *** Ratios of counts *)


Lemma nat_ratio_margin a n :
  (1 <= a)%nat -> (a < n)%nat -> (n < 200)%nat ->
  1 # 200 < nat_ratio a n /\ nat_ratio a n < 199 # 200.
Proof.
  intros La Ln L200. unfold nat_ratio.
  assert (Ha : 1 <= inject_Z (Z.of_nat a))
    by (change 1 with (inject_Z 1); rewrite <- Zle_Qle; lia).
  assert (Hn : inject_Z (Z.of_nat a) + 1 <= inject_Z (Z.of_nat n)).
  { change 1 with (inject_Z 1). rewrite <- inject_Z_plus, <- Zle_Qle. lia. }
  assert (H200 : inject_Z (Z.of_nat n) < 200)
    by (change 200 with (inject_Z 200); rewrite <- Zlt_Qlt; lia).
  split.
  - apply Qlt_shift_div_l; lra.
  - apply Qlt_shift_div_r; lra.
Qed.


End Rounding.

(** ** Agreement *)

Lemma filter_length_pos {A} (f : A -> bool) l x :
  In x l -> f x = true -> 1 <= length (filter f l).
Proof.
  induction l as [|y l IH]; simpl; [tauto|].
  intros [->|I] H.
  - rewrite H. simpl. lia.
  - destruct (f y); simpl; [lia | now apply IH].
Qed.

Lemma filter_length_lt {A} (f : A -> bool) l x :
  In x l -> f x = false -> length (filter f l) < length l.
Proof.
  induction l as [|y l IH]; simpl; [tauto|].
  intros [->|I] H.
  - rewrite H. pose proof (filter_length_le f l). lia.
  - specialize (IH I H). destruct (f y); simpl; lia.
Qed.



(** In a conflict the chosen value is held by at least one and not by all
    of the reporting sources. *)
Lemma conflict_counts found a b rest s sdk :
  unique_values found = a :: b :: rest -> get found s = Some sdk ->
  1 <= count_agree found sdk /\ count_agree found sdk < length found.
Proof.
  intros U G. destruct (unique_values_many _ _ _ _ U) as (Nab & Ia & Ib).
  unfold count_agree. split.
  - apply filter_length_pos with (x := sdk); [|apply String.eqb_refl].
    apply get_In in G. change sdk with (snd (s, sdk)). now apply in_map.
  - rewrite <- (values_length found).
    destruct (string_dec a sdk) as [->|Na].
    + apply filter_length_lt with (x := b); [assumption|].
      apply String.eqb_neq. congruence.
    + apply filter_length_lt with (x := a); [assumption|].
      now apply String.eqb_neq.
Qed.


Lemma three_way_split_wf : wf three_way_split.
Proof.
  unfold wf. simpl. repeat constructor; simpl; intuition discriminate.
Defined.



(** ** The order on sort keys *)

Lemma key_ltb_irrefl a : key_ltb a a = false.
Proof.
  induction a as [|x a IH]; simpl; [reflexivity|].
  now rewrite Z.eqb_refl.
Qed.

Lemma key_leb_refl a : key_leb a a = true.
Proof. unfold key_leb. now rewrite key_ltb_irrefl. Qed.

Lemma key_ltb_asym a : forall b, key_ltb a b = true -> key_ltb b a = false.
Proof.
  induction a as [|x a IH]; intros [|y b]; simpl; try congruence.
  destruct (Z.eqb_spec x y) as [->|N].
  - rewrite Z.eqb_refl. apply IH.
  - destruct (Z.eqb_spec y x) as [E|_]; [congruence|].
    intros H. apply Z.ltb_lt in H. apply Z.ltb_ge. lia.
Qed.

Lemma key_leb_total a b : key_leb a b = true \/ key_leb b a = true.
Proof.
  unfold key_leb. destruct (key_ltb b a) eqn:E; [|now left].
  right. now rewrite (key_ltb_asym _ _ E).
Qed.



(** ** [sorted] *)

Section SortingFacts.
Context {A : Type} (key : A -> list Z).

Lemma insert_by_In x y l : In x (insert_by key y l) <-> x = y \/ In x l.
Proof.
  induction l as [|z l IH]; simpl.
  - intuition.
  - destruct (key_ltb (key z) (key y)); simpl; [rewrite IH|]; intuition.
Qed.

Lemma sorted_by_In x l : In x (sorted_by key l) <-> In x l.
Proof.
  induction l as [|y l IH]; simpl; [tauto|].
  rewrite insert_by_In, IH. intuition.
Qed.



End SortingFacts.

(** ** The flat output *)



Lemma flat_step_cases flat r :
  (usable r = false /\ flat_step flat r = flat)
  \/ (exists sdk, ios_sdk r = Some sdk /\ truthy sdk = true
                  /\ flat_step flat r = set flat (xcode r) sdk).
Proof.
  unfold flat_step, usable. destruct (ios_sdk r) as [sdk|]; [|now left].
  destruct (truthy sdk) eqn:T; [right; now exists sdk | now left].
Qed.


Lemma flat_fold_wf L : forall acc, wf acc -> wf (fold_left flat_step L acc).
Proof.
  induction L as [|r L IH]; intros acc H; simpl; [assumption|].
  apply IH.
  destruct (flat_step_cases acc r) as [[_ ->]|(sdk & _ & _ & ->)];
    [assumption | now apply wf_set].
Qed.

Lemma flat_fold_keys L : forall acc k,
  In k (keys (fold_left flat_step L acc))
  <-> In k (keys acc)
      \/ exists r, In r L /\ xcode r = k /\ usable r = true.
Proof.
  induction L as [|r L IH]; intros acc k; simpl.
  - split; [now left | intros [H|(r & [] & _)]; assumption].
  - rewrite IH.
    destruct (flat_step_cases acc r) as [[U ->]|(sdk & S & T & ->)].
    + split.
      * intros [H|(r' & I & E & U')]; [now left|]. right. exists r'. auto.
      * intros [H|(r' & [<-|I] & E & U')]; [now left | congruence |].
        right. exists r'. auto.
    + assert (Ur : usable r = true) by (unfold usable; now rewrite S).
      rewrite keys_set. split.
      * intros [H|(r' & I & E & U')].
        -- destruct (mem acc (xcode r)); [now left|].
           apply in_app_or in H. destruct H as [H|[<-|[]]]; [now left|].
           right. exists r. auto.
        -- right. exists r'. auto.
      * intros [H|(r' & [<-|I] & E & U')].
        -- left. destruct (mem acc (xcode r)); [assumption|].
           apply in_or_app. now left.
        -- left. subst k. unfold mem.
           destruct (get acc (xcode r)) eqn:G.
           ++ now apply get_Some_key in G.
           ++ apply in_or_app. right. now left.
        -- right. exists r'. auto.
Qed.

Lemma flat_fold_In L : forall acc k v,
  In (k, v) (fold_left flat_step L acc) ->
  In (k, v) acc
  \/ exists r, In r L /\ xcode r = k /\ ios_sdk r = Some v /\ truthy v = true.
Proof.
  induction L as [|r L IH]; intros acc k v H; simpl in *; [now left|].
  apply IH in H. destruct H as [H|(r' & I & E & S & T)].
  - destruct (flat_step_cases acc r) as [[_ Hs]|(sdk & S & T & Hs)];
      rewrite Hs in H; [now left|].
    apply In_set in H. destruct H as [[= -> ->]|H]; [|now left].
    right. exists r. auto.
  - right. exists r'. auto.
Qed.




(** ** Equality of dictionaries *)

Section DictEquality.
Context {V W : Type} (veqb : V -> W -> bool).

Lemma eqb_agree d1 d2 :
  wf d1 -> wf d2 ->
  (PyDict.eqb veqb d1 d2 = true <-> forall k, agree_at veqb d1 d2 k).
Proof.
  intros W1 W2. unfold PyDict.eqb, agree_at.
  rewrite andb_true_iff, Nat.eqb_eq, forallb_forall. split.
  - intros [L F] k.
    assert (I12 : incl (keys d1) (keys d2)).
    { intros x Hx. apply In_key_get in Hx. destruct Hx as [v Hv].
      apply get_In in Hv. specialize (F _ Hv). simpl in F.
      destruct (get d2 x) eqn:G; [|discriminate]. now apply get_Some_key in G. }
    assert (I21 : incl (keys d2) (keys d1)).
    { apply NoDup_length_incl; auto. unfold keys. rewrite !length_map. lia. }
    destruct (get d1 k) as [a|] eqn:G1.
    + apply get_In in G1. specialize (F _ G1). simpl in F.
      destruct (get d2 k); [assumption | discriminate].
    + destruct (get d2 k) as [b|] eqn:G2; [|exact I].
      apply get_Some_key, I21 in G2. apply get_None in G1. contradiction.
  - intros H.
    assert (I12 : incl (keys d1) (keys d2)).
    { intros x Hx. apply In_key_get in Hx. destruct Hx as [v Hv].
      specialize (H x). rewrite Hv in H.
      destruct (get d2 x) eqn:G; [|contradiction]. now apply get_Some_key in G. }
    assert (I21 : incl (keys d2) (keys d1)).
    { intros x Hx. apply In_key_get in Hx. destruct Hx as [v Hv].
      specialize (H x). rewrite Hv in H.
      destruct (get d1 x) eqn:G; [|contradiction]. now apply get_Some_key in G. }
    split.
    + pose proof (NoDup_incl_length W1 I12) as L1.
      pose proof (NoDup_incl_length W2 I21) as L2.
      unfold keys in L1, L2. rewrite !length_map in L1, L2. lia.
    + intros [k v] Hin. simpl. specialize (H k).
      rewrite (In_get _ _ _ W1 Hin) in H.
      destruct (get d2 k); [assumption | contradiction].
Qed.

End DictEquality.

Lemma get_permutation {V} (d1 d2 : dict V) k :
  wf d1 -> Permutation d1 d2 -> get d1 k = get d2 k.
Proof.
  intros W1 P.
  assert (W2 : wf d2).
  { unfold wf, keys. eapply Permutation_NoDup; [|exact W1].
    now apply Permutation_map. }
  destruct (get d1 k) as [v|] eqn:G1.
  - apply get_In in G1. symmetry. apply In_get; [assumption|].
    now apply (Permutation_in _ P).
  - destruct (get d2 k) as [v|] eqn:G2; [|reflexivity].
    apply get_In in G2. apply Permutation_sym in P.
    apply (Permutation_in _ P) in G2.
    apply (In_get _ _ _ W1) in G2. congruence.
Qed.

(** ** [main] *)

Lemma map_raise_total {A B} (f : A -> option B) l :
  (forall x, exists y, f x = Some y) -> exists ys, map_raise f l = Some ys.
Proof.
  intros H. induction l as [|x l [ys IH]]; simpl; [now exists []|].
  destruct (H x) as [y ->]. rewrite IH. now exists (y :: ys).
Qed.

Lemma cross_reference_total urls ver srcs :
  exists r, cross_reference urls ver srcs = Some r.
Proof.
  destruct (cross_reference_cases urls ver srcs)
    as [[_ E]|[(u & k & _ & _ & E)|(a & b & rest & k & sdk & _ & _ & _ & E)]];
    eauto.
Qed.

(** [main] always reaches one of its two [sys.exit] calls. *)
Lemma main_outcomes args w :
  exists r, main args w = Some r
    /\ ((run_exit r = ExitMessage NO_VERSIONS_MESSAGE
         /\ run_records r = [] /\ run_written r = None)
        \/ (run_exit r
            = ExitInt (if map_changed (previous w)
                            (_results_to_flat (output_rows args (run_records r)))
                       then 1%Z else 0%Z)
            /\ run_written r <> None)).
Proof.
  unfold main.
  destruct (all_versions _ _) as [|v vs] eqn:U.
  - eexists. split; [reflexivity|]. left. auto.
  - destruct (map_raise_total
                (fun ver => cross_reference (version_urls w) ver
                              (ordered_sources (raw_sources (fetched w))))
                (sorted_by_reverse ver_key (v :: vs))
                (fun x => cross_reference_total _ _ _)) as [results ->].
    eexists. split; [reflexivity|]. right. simpl. split; [reflexivity|discriminate].
Qed.

Lemma json_is_string_spec v s : json_is_string v s = true <-> v = JString s.
Proof.
  destruct v as [s'| |]; simpl; try (split; discriminate).
  rewrite String.eqb_eq. split; congruence.
Qed.

(** C9.  Without a previous file, or with one that cannot be parsed, the
    verdict is "changed".  With a previous JSON object the verdict is
    "unchanged" exactly when it maps the same keys to the same strings as
    the new flat mapping, in whatever order; any other JSON value counts as
    changed.  [main] exits with 1 for "changed" and 0 for "unchanged". *)
Theorem change_verdict_spec :
  (forall flat_new, map_changed NoFile flat_new = true)
  /\ (forall flat_new, map_changed Unparsable flat_new = true)
  /\ (forall members flat_new,
        wf members -> wf flat_new ->
        (map_changed (Loaded (JObject members)) flat_new = false
         <-> same_mapping members flat_new))
  /\ (forall v flat_new,
        (forall members, v <> JObject members) ->
        map_changed (Loaded v) flat_new = true)
  /\ (forall prev flat1 flat2,
        wf flat1 -> Permutation flat1 flat2 ->
        (forall members, prev = Loaded (JObject members) -> wf members) ->
        map_changed prev flat1 = map_changed prev flat2)
  /\ (forall args w,
        exists r, main args w = Some r
          /\ (run_written r <> None ->
              run_exit r
              = ExitInt (if map_changed (previous w)
                              (_results_to_flat
                                 (output_rows args (run_records r)))
                         then EXIT_CHANGED else EXIT_UNCHANGED))).
Proof.
  assert (Hobj : forall members flat_new,
             wf members -> wf flat_new ->
             (map_changed (Loaded (JObject members)) flat_new = false
              <-> same_mapping members flat_new)).
  { intros members flat_new W1 W2. simpl. rewrite negb_false_iff.
    rewrite (eqb_agree json_is_string members flat_new W1 W2).
    unfold same_mapping, agree_at. split; intros H k; specialize (H k).
    - destruct (get members k) as [a|], (get flat_new k) as [b|];
        simpl; try contradiction; [|reflexivity].
      apply json_is_string_spec in H. now subst.
    - destruct (get members k) as [a|], (get flat_new k) as [b|];
        simpl in *; try discriminate; [|exact I].
      injection H as ->. now apply json_is_string_spec. }
  refine (conj _ (conj _ (conj Hobj (conj _ (conj _ _))))).
  - reflexivity.
  - reflexivity.
  - intros v flat_new H. destruct v as [s|members|]; try reflexivity.
    now destruct (H members).
  - intros prev flat1 flat2 W1 P Wm.
    assert (W2 : wf flat2).
    { unfold wf, keys. eapply Permutation_NoDup; [|exact W1].
      now apply Permutation_map. }
    destruct prev as [| |[s|members|]]; try reflexivity.
    specialize (Wm members eq_refl).
    destruct (map_changed (Loaded (JObject members)) flat1) eqn:C1;
      destruct (map_changed (Loaded (JObject members)) flat2) eqn:C2;
      try reflexivity; exfalso.
    + apply (Hobj _ _ Wm W2) in C2.
      assert (S1 : same_mapping members flat1)
        by (intros k; rewrite (C2 k); now rewrite (get_permutation _ _ k W1 P)).
      apply (Hobj _ _ Wm W1) in S1. congruence.
    + apply (Hobj _ _ Wm W1) in C1.
      assert (S2 : same_mapping members flat2)
        by (intros k; rewrite (C1 k); now rewrite (get_permutation _ _ k W1 P)).
      apply (Hobj _ _ Wm W2) in S2. congruence.
  - intros args w. destruct (main_outcomes args w) as (r & E & [(_ & _ & N)|[X _]]).
    + exists r. split; [exact E|]. intros H. contradiction.
    + exists r. split; [exact E|]. intros _. exact X.
Qed.

Lemma change_verdict_spec_witness :
  wf [("9.0", JString "11.0"); ("10.0", JString "12.0")]
  /\ wf [("10.0", "12.0"); ("9.0", "11.0")]
  /\ same_mapping [("9.0", JString "11.0"); ("10.0", JString "12.0")]
                  [("10.0", "12.0"); ("9.0", "11.0")]
  /\ map_changed (Loaded (JObject [("9.0", JString "11.0");
                                   ("10.0", JString "12.0")]))
                 [("10.0", "12.0"); ("9.0", "11.0")] = false.
Proof.
  assert (W1 : wf [("9.0", JString "11.0"); ("10.0", JString "12.0")]).
  { unfold wf. simpl. repeat constructor; simpl; intuition discriminate. }
  assert (W2 : wf [("10.0", "12.0"); ("9.0", "11.0")]).
  { unfold wf. simpl. repeat constructor; simpl; intuition discriminate. }
  pose proof (proj1 (proj2 (proj2 change_verdict_spec)) _ _ W1 W2) as H.
  assert (S : same_mapping [("9.0", JString "11.0"); ("10.0", JString "12.0")]
                           [("10.0", "12.0"); ("9.0", "11.0")])
    by (apply H; reflexivity).
  split; [exact W1|]. split; [exact W2|]. split; [exact S|].
  apply H, S.
Defined.

(** ** The exit status of an empty universe *)

Lemma main_empty_universe args w :
  all_versions (if skip_xcodes args then [] else xcodes_cli w)
               (ordered_sources (raw_sources (fetched w))) = [] ->
  main args w = Some {| run_exit := ExitMessage NO_VERSIONS_MESSAGE;
                        run_records := []; run_written := None |}.
Proof. intros H. unfold main. now rewrite H. Qed.

(** C4, evaluated.  With no version from any source and none from the
    enumeration, [main] stops at [sys.exit] with the error message before
    any record is built or file written; a message as the argument of
    [sys.exit] makes the exit status 1, the status of a changed map. *)
Theorem empty_universe_exit_status :
  all_versions (xcodes_cli silent_world)
               (ordered_sources (raw_sources (fetched silent_world))) = []
  /\ exists r, main default_arguments silent_world = Some r
       /\ run_exit r = ExitMessage NO_VERSIONS_MESSAGE
       /\ run_records r = []
       /\ run_written r = None
       /\ exit_status (run_exit r) = EXIT_CHANGED
       /\ exit_status (run_exit r) <> EXIT_UNCHANGED
       /\ ~ (2 <= exit_status (run_exit r))%Z.
Proof.
  split; [reflexivity|].
  eexists. split; [reflexivity|].
  repeat split; try discriminate. simpl. lia.
Qed.


(** ** The sources [main] hands to the engine

    [ordered_sources] always has the eight names of [SOURCE_NAMES] as its
    keys, in that order, so the conditions the engine's properties ask of a
    dictionary of sources hold for every record [main] builds. *)

Lemma ordered_sources_keys raw : keys (ordered_sources raw) = SOURCE_NAMES.
Proof.
  unfold ordered_sources, keys. rewrite map_map. simpl. reflexivity.
Qed.

Lemma SOURCE_NAMES_NoDup : NoDup SOURCE_NAMES.
Proof.
  unfold SOURCE_NAMES. repeat constructor; simpl; intuition discriminate.
Qed.

Lemma ordered_sources_wf raw : wf (ordered_sources raw).
Proof. unfold wf. rewrite ordered_sources_keys. apply SOURCE_NAMES_NoDup. Qed.

Lemma ordered_sources_ranked raw : ranked (ordered_sources raw).
Proof.
  unfold ranked. rewrite ordered_sources_keys. apply Forall_forall. auto.
Qed.

Lemma n_reporting_le ver srcs : n_reporting ver srcs <= length srcs.
Proof.
  unfold n_reporting. induction srcs as [|[s d] srcs IH]; simpl; [lia|].
  rewrite length_app. destruct (lookup_source d ver); simpl; lia.
Qed.

Lemma ordered_sources_few ver raw :
  n_reporting ver (ordered_sources raw) <= 8.
Proof.
  pose proof (n_reporting_le ver (ordered_sources raw)) as H.
  unfold ordered_sources in H. rewrite length_map in H. exact H.
Qed.


(** * Further properties of the code *)

(** ** Provenance of the chosen value *)

Lemma first_authority_found ver srcs :
  wf srcs -> ranked srcs -> found_values ver srcs <> [] ->
  exists s, find (mem (found_values ver srcs)) SOURCE_NAMES = Some s
            /\ first_authority srcs ver = Some s.
Proof.
  intros W R N.
  assert (E : find (mem (found_values ver srcs)) SOURCE_NAMES
              = first_authority srcs ver).
  { unfold first_authority. apply find_pointwise.
    intros x. now apply mem_found_offers. }
  destruct (found_values ver srcs) as [|[k v] rest] eqn:F; [congruence|].
  destruct (find (mem ((k, v) :: rest)) SOURCE_NAMES) as [s|] eqn:Fd.
  - exists s. split; [reflexivity | now rewrite <- E].
  - exfalso.
    assert (Hin : In k SOURCE_NAMES).
    { apply (found_key_ranked ver srcs); auto. rewrite F. now left. }
    pose proof (find_none _ _ Fd _ Hin) as C.
    unfold mem in C. simpl in C. rewrite String.eqb_refl in C. discriminate.
Qed.

Lemma single_value_is_mem found u :
  unique_values found = [u] -> forall s, value_is found u s = mem found s.
Proof.
  intros U s. unfold value_is, mem. destruct (get found s) as [v|] eqn:G; [|reflexivity].
  apply String.eqb_eq. apply (unique_values_single _ _ U).
  apply get_In in G. change v with (snd (s, v)). now apply in_map.
Qed.

Lemma source_value_key srcs ver s v :
  source_value srcs ver s = Some v -> In s (keys srcs).
Proof.
  unfold source_value. destruct (get srcs s) eqn:G; [|discriminate].
  intros _. now apply get_Some_key in G.
Qed.

(** X1.  The record carries the version it was asked for; it has no
    resolved SDK exactly when its status is [not_found], and exactly when
    it names no chosen source; and a chosen source is one of the given
    sources, whose own value for the version is the resolved SDK. *)
Theorem chosen_source_offers_value urls ver srcs :
  wf srcs ->
  exists r, cross_reference urls ver srcs = Some r
    /\ xcode r = ver
    /\ (status r = not_found <-> ios_sdk r = None)
    /\ (chosen_from r = None <-> ios_sdk r = None)
    /\ (forall s, chosen_from r = Some s ->
          In s (keys srcs) /\ source_value srcs ver s = ios_sdk r).
Proof.
  intros W.
  destruct (cross_reference_cases urls ver srcs)
    as [[F E]|[(u & k & U & K & E)|(a & b & rest & k & sdk & U & K & G & E)]];
    eexists; (split; [exact E|]); simpl.
  - repeat split; auto; discriminate.
  - split; [reflexivity|]. split; [|split].
    + split; [destruct (Nat.ltb 1 _)|]; discriminate.
    + split; discriminate.
    + intros s [= <-].
      assert (V : value_is (found_values ver srcs) u
                    (next_or (value_is (found_values ver srcs) u) SOURCE_NAMES k)
                  = true).
      { apply next_or_holds. rewrite (single_value_is_mem _ _ U).
        unfold mem. destruct (found_values ver srcs) as [|[k0 v0] l]; [discriminate K|].
        injection K as <-. simpl. now rewrite String.eqb_refl. }
      unfold value_is in V. rewrite (get_found_values _ _ _ W) in V.
      destruct (source_value srcs ver _) as [v|] eqn:S; [|discriminate].
      apply String.eqb_eq in V. subst v.
      split; [now apply source_value_key in S | reflexivity].
  - split; [reflexivity|]. split; [|split].
    + split; discriminate.
    + split; discriminate.
    + intros s [= <-]. rewrite (get_found_values _ _ _ W) in G.
      split; [now apply source_value_key in G | exact G].
Qed.

Lemma chosen_source_offers_value_witness :
  wf three_way_split
  /\ exists r, cross_reference [] "9.0" three_way_split = Some r
       /\ chosen_from r = Some "apple_support"
       /\ source_value three_way_split "9.0" "apple_support" = ios_sdk r.
Proof.
  split; [exact three_way_split_wf|].
  destruct (chosen_source_offers_value [] "9.0" three_way_split three_way_split_wf)
    as (r & E & _ & _ & _ & H).
  exists r. split; [exact E|].
  assert (C : chosen_from r = Some "apple_support")
    by (injection E as <-; reflexivity).
  split; [exact C | exact (proj2 (H _ C))].
Defined.

(** X2.  When every source name has a rank, the chosen source is the
    first name of [SOURCE_NAMES] that offers a value, whatever the status:
    also for [consensus] and [single_source], and none for [not_found]. *)
Theorem chosen_source_is_first_authority urls ver srcs :
  wf srcs -> ranked srcs ->
  exists r, cross_reference urls ver srcs = Some r
    /\ chosen_from r = first_authority srcs ver.
Proof.
  intros W R.
  destruct (cross_reference_cases urls ver srcs)
    as [[F E]|[(u & k & U & K & E)|(a & b & rest & k & sdk & U & K & G & E)]];
    eexists; (split; [exact E|]); simpl.
  - unfold first_authority.
    destruct (find (offers srcs ver) SOURCE_NAMES) as [s|] eqn:Fd; [|reflexivity].
    apply find_some in Fd. destruct Fd as [_ O].
    rewrite <- (mem_found_offers ver srcs s W), F in O. discriminate.
  - assert (N : found_values ver srcs <> [])
      by (intros F; rewrite F in U; discriminate).
    destruct (first_authority_found ver srcs W R N) as (s & Fd & FA).
    rewrite FA. f_equal. unfold next_or.
    rewrite (find_pointwise _ _ SOURCE_NAMES (single_value_is_mem _ _ U)).
    now rewrite Fd.
  - assert (N : found_values ver srcs <> [])
      by (intros F; rewrite F in U; discriminate).
    destruct (first_authority_found ver srcs W R N) as (s & Fd & FA).
    rewrite FA. f_equal. unfold next_or. now rewrite Fd.
Qed.

Lemma outvoted_authority_wf : wf outvoted_authority.
Proof.
  unfold wf. simpl. repeat constructor; simpl; intuition discriminate.
Defined.

Lemma chosen_source_is_first_authority_witness :
  wf outvoted_authority /\ ranked outvoted_authority
  /\ exists r, cross_reference [] "9.0" outvoted_authority = Some r
       /\ chosen_from r = first_authority outvoted_authority "9.0".
Proof.
  assert (R : ranked outvoted_authority).
  { unfold ranked. simpl. repeat constructor; simpl; tauto. }
  split; [exact outvoted_authority_wf|]. split; [exact R|].
  exact (chosen_source_is_first_authority [] "9.0" outvoted_authority
           outvoted_authority_wf R).
Defined.

(** ** The per-source breakdown and its URLs *)

Lemma get_tabulate {V} (g : string -> V) ks s :
  In s ks -> get (map (fun k => (k, g k)) ks) s = Some (g s).
Proof.
  induction ks as [|k ks IH]; simpl; [tauto|].
  destruct (String.eqb_spec k s) as [->|N]; [reflexivity|].
  intros [E|I]; [contradiction | now apply IH].
Qed.

Lemma keys_tabulate {V} (g : string -> V) ks :
  keys (map (fun k => (k, g k)) ks) = ks.
Proof. unfold keys. rewrite map_map. simpl. apply map_id. Qed.

Lemma truthy_spec s : truthy s = true <-> s <> "".
Proof.
  unfold truthy. destruct (String.eqb_spec s ""); simpl; split; congruence.
Qed.

(** X3.  The ["sources"] field lists the given sources once each, in
    their order; a source that offers a non-empty value is shown with that
    value, every other source with the dash, and each with the URL
    [_url_for] gives. *)
Theorem sources_breakdown urls ver srcs :
  wf srcs ->
  exists r, cross_reference urls ver srcs = Some r
    /\ keys (sources r) = keys srcs
    /\ forall s, In s (keys srcs) ->
         get (sources r) s
         = Some (match source_value srcs ver s with
                 | Some v => if String.eqb v "" then NO_DATA else v
                 | None => NO_DATA
                 end, _url_for urls ver s).
Proof.
  intros W.
  assert (Shown : forall s,
             shown_value (found_values ver srcs) s
             = match source_value srcs ver s with
               | Some v => if String.eqb v "" then NO_DATA else v
               | None => NO_DATA
               end).
  { intros s. unfold shown_value, truthy. rewrite (get_found_values _ _ _ W).
    destruct (source_value srcs ver s) as [v|]; [|reflexivity].
    now destruct (String.eqb v ""). }
  destruct (cross_reference_cases urls ver srcs)
    as [[F E]|[(u & k & U & K & E)|(a & b & rest & k & sdk & U & K & G & E)]];
    eexists; (split; [exact E|]); simpl; unfold source_entries;
    (split; [apply (keys_tabulate (fun s => (_, _ urls ver s)))|]);
    intros s I.
  - rewrite (get_tabulate (fun s => (NO_DATA, _url_for urls ver s)) _ _ I).
    rewrite <- (get_found_values _ _ _ W), F. reflexivity.
  - rewrite (get_tabulate
               (fun s => (shown_value (found_values ver srcs) s,
                          _url_for urls ver s)) _ _ I).
    now rewrite Shown.
  - rewrite (get_tabulate
               (fun s => (shown_value (found_values ver srcs) s,
                          _url_for urls ver s)) _ _ I).
    now rewrite Shown.
Qed.

Lemma sources_breakdown_witness :
  wf three_way_split
  /\ exists r, cross_reference [] "9.0" three_way_split = Some r
       /\ keys (sources r) = ["apple_support"; "xcodereleases"; "wikipedia_xcode"].
Proof.
  split; [exact three_way_split_wf|].
  destruct (sources_breakdown [] "9.0" three_way_split three_way_split_wf)
    as (r & E & K & _).
  exists r. split; [exact E | exact K].
Defined.

Lemma url_for_cases urls ver s :
  truthy (_url_for urls ver s) = true
  \/ _url_for urls ver s = match get SOURCE_URLS s with
                           | Some u => u
                           | None => ""
                           end.
Proof.
  unfold _url_for.
  set (table := match get urls s with Some d => d | None => [] end).
  set (static := match get SOURCE_URLS s with Some u => u | None => "" end).
  assert (F : forall parts : list string,
             truthy (if Nat.eqb (length parts) 3
                     then match get table (join_dot (firstn 2 parts)) with
                          | Some u => if truthy u then u else static
                          | None => static
                          end
                     else static) = true
             \/ (if Nat.eqb (length parts) 3
                 then match get table (join_dot (firstn 2 parts)) with
                      | Some u => if truthy u then u else static
                      | None => static
                      end
                 else static) = static).
  { intros parts. destruct (Nat.eqb (length parts) 3); [|now right].
    destruct (get table _) as [u|]; [|now right].
    destruct (truthy u) eqn:T; [now left | now right]. }
  destruct (get table ver) as [u|]; [|apply F].
  destruct (truthy u) eqn:T; [now left | apply F].
Qed.

Lemma static_url_nonempty s :
  In s SOURCE_NAMES ->
  match get SOURCE_URLS s with Some u => u | None => "" end <> "".
Proof.
  unfold SOURCE_NAMES. simpl.
  intros [<-|[<-|[<-|[<-|[<-|[<-|[<-|[<-|[]]]]]]]]]; discriminate.
Qed.

(** X4.  For each of the eight ranked sources [_url_for] returns a
    non-empty URL, whatever the adapters recorded.  A non-empty URL
    recorded for the exact version is returned; failing that, for a
    version of three components, a non-empty URL recorded for its first
    two; and a source without a table gets its static URL. *)
Theorem url_for_spec urls ver s :
  (In s SOURCE_NAMES -> _url_for urls ver s <> "")
  /\ (forall table u,
        get urls s = Some table -> get table ver = Some u -> u <> "" ->
        _url_for urls ver s = u)
  /\ (forall table a b c u,
        get urls s = Some table -> split_dot ver = [a; b; c] ->
        get table ver = None \/ get table ver = Some "" ->
        get table (a ++ "." ++ b)%string = Some u -> u <> "" ->
        _url_for urls ver s = u)
  /\ (get urls s = None ->
      _url_for urls ver s = match get SOURCE_URLS s with
                            | Some u => u
                            | None => ""
                            end).
Proof.
  refine (conj _ (conj _ (conj _ _))).
  - intros I. destruct (url_for_cases urls ver s) as [T|E].
    + now apply truthy_spec.
    + rewrite E. now apply static_url_nonempty.
  - intros table u G1 G2 N. unfold _url_for. rewrite G1, G2.
    apply truthy_spec in N. now rewrite N.
  - intros table a b c u G1 S G2 G3 N. unfold _url_for. rewrite G1, S.
    change (join_dot (firstn 2 [a; b; c])) with (a ++ "." ++ b)%string.
    change (Nat.eqb (length [a; b; c]) 3) with true. cbv iota.
    rewrite G3.
    apply truthy_spec in N. rewrite N.
    destruct G2 as [-> | ->]; reflexivity.
  - intros G. unfold _url_for. rewrite G. simpl.
    now destruct (Nat.eqb (length (split_dot ver)) 3).
Qed.

Lemma url_for_spec_witness :
  In "apple_support" SOURCE_NAMES
  /\ _url_for [("apple_support", [("9.0", "")])] "9.0" "apple_support" <> "".
Proof.
  assert (I : In "apple_support" SOURCE_NAMES) by (simpl; tauto).
  split; [exact I|].
  exact (proj1 (url_for_spec [("apple_support", [("9.0", "")])] "9.0"
                  "apple_support") I).
Defined.

(** ** Normalising twice *)

Lemma normalize_fold_dotted data : forall acc,
  (forall k, In k (keys acc) -> contains_dot k = true) ->
  forall k, In k (keys (fold_left normalize_step data acc)) ->
            contains_dot k = true.
Proof.
  induction data as [|[k0 v0] data IH]; intros acc H k; simpl; [apply H|].
  apply IH. intros k' I. unfold normalize_step, setdefault in I. simpl in I.
  destruct (get acc (_normalize_xcode_ver k0)); [now apply H|].
  unfold keys in I. rewrite map_app in I. apply in_app_or in I.
  destruct I as [I|[<-|[]]]; [now apply H | apply normalize_has_dot].
Qed.

Lemma normalize_fold_fixed data : forall acc,
  NoDup (keys data) ->
  (forall k, In k (keys data) -> contains_dot k = true /\ ~ In k (keys acc)) ->
  fold_left normalize_step data acc = acc ++ data.
Proof.
  induction data as [|[k0 v0] data IH]; intros acc N H; simpl.
  - now rewrite app_nil_r.
  - inversion N as [|? ? N0 N']; subst.
    destruct (H k0 (or_introl eq_refl)) as [D F].
    assert (S : normalize_step acc (k0, v0) = acc ++ [(k0, v0)]).
    { unfold normalize_step, setdefault. simpl. rewrite (normalize_fixed _ D).
      apply get_None in F. now rewrite F. }
    rewrite S, IH; auto.
    + now rewrite <- app_assoc.
    + intros k I. destruct (H k (or_intror I)) as [Dk Fk]. split; [exact Dk|].
      unfold keys. rewrite map_app. intros J. apply in_app_or in J.
      destruct J as [J|[<-|[]]]; auto.
Qed.

(** X5.  A dictionary whose keys all have a dot comes back from
    [_normalize_source_keys] unchanged, entries and order; so normalising
    the keys a second time changes nothing; and the result never has more
    entries than the input. *)
Theorem normalize_source_keys_idempotent :
  (forall data,
      wf data -> (forall k, In k (keys data) -> In "."%char (chars k)) ->
      _normalize_source_keys data = data)
  /\ (forall data,
        _normalize_source_keys (_normalize_source_keys data)
        = _normalize_source_keys data)
  /\ (forall data, length (_normalize_source_keys data) <= length data).
Proof.
  assert (Fixed : forall data,
             wf data -> (forall k, In k (keys data) -> contains_dot k = true) ->
             _normalize_source_keys data = data).
  { intros data W D. unfold _normalize_source_keys.
    rewrite normalize_fold_fixed; auto. }
  split; [|split].
  - intros data W D. apply Fixed; [assumption|].
    intros k I. now apply contains_dot_In, D.
  - intros data. apply Fixed.
    + apply normalize_fold_wf. constructor.
    + apply (normalize_fold_dotted data []). intros k [].
  - intros data. unfold _normalize_source_keys.
    assert (G : forall l acc,
               length (fold_left normalize_step l acc) <= length acc + length l).
    { induction l as [|kv l IH]; intros acc; simpl; [lia|].
      specialize (IH (normalize_step acc kv)).
      assert (length (normalize_step acc kv) <= S (length acc)).
      { unfold normalize_step, setdefault.
        destruct (get acc _); [lia|]. rewrite length_app. simpl. lia. }
      lia. }
    apply (G data []).
Qed.

Lemma normalize_source_keys_idempotent_witness :
  wf [("9.0", "11.0"); ("10.1", "12.1")]
  /\ _normalize_source_keys [("9.0", "11.0"); ("10.1", "12.1")]
     = [("9.0", "11.0"); ("10.1", "12.1")].
Proof.
  assert (W : wf [("9.0", "11.0"); ("10.1", "12.1")]).
  { unfold wf. simpl. repeat constructor; simpl; intuition discriminate. }
  split; [exact W|].
  apply (proj1 normalize_source_keys_idempotent _ W).
  intros k [<-|[<-|[]]]; apply contains_dot_In; reflexivity.
Defined.

(** ** Looking a record up in the flat output *)

Lemma insert_by_permutation {A} (key : A -> list Z) x l :
  Permutation (insert_by key x l) (x :: l).
Proof.
  induction l as [|y l IH]; simpl; [reflexivity|].
  destruct (key_ltb (key y) (key x)); [|reflexivity].
  rewrite IH. apply perm_swap.
Qed.

Lemma sorted_by_permutation {A} (key : A -> list Z) l :
  Permutation (sorted_by key l) l.
Proof.
  induction l as [|x l IH]; simpl; [reflexivity|].
  rewrite insert_by_permutation. now constructor.
Qed.

Lemma NoDup_map_injective {A B} (f : A -> B) l a b :
  NoDup (map f l) -> In a l -> In b l -> f a = f b -> a = b.
Proof.
  induction l as [|x l IH]; simpl; [tauto|].
  intros N Ia Ib E. inversion N as [|? ? Nx N']; subst.
  destruct Ia as [<-|Ia], Ib as [<-|Ib]; auto.
  - exfalso. apply Nx. rewrite E. now apply in_map.
  - exfalso. apply Nx. rewrite <- E. now apply in_map.
Qed.

Lemma flat_lookup results r :
  NoDup (map xcode results) -> In r results ->
  get (_results_to_flat results) (xcode r)
  = if usable r then ios_sdk r else None.
Proof.
  intros N I. unfold _results_to_flat.
  set (L := sorted_by (fun r => ver_key (xcode r)) results).
  assert (P : Permutation L results) by apply sorted_by_permutation.
  assert (NL : NoDup (map xcode L)).
  { eapply Permutation_NoDup; [|exact N].
    apply Permutation_map. now apply Permutation_sym. }
  assert (IL : In r L) by (apply (Permutation_in _ (Permutation_sym P)); exact I).
  destruct (get (fold_left flat_step L []) (xcode r)) as [v|] eqn:G.
  - apply get_In, flat_fold_In in G. destruct G as [[]|(r' & I' & E & S & T)].
    assert (r' = r) by (apply (NoDup_map_injective xcode L); auto).
    subst r'. unfold usable. now rewrite S, T.
  - destruct (usable r) eqn:U; [|reflexivity].
    exfalso. apply get_None in G. apply G.
    apply flat_fold_keys. right. exists r. auto.
Qed.

(** X6.  When no two records are for the same version, looking a
    record's version up in the flat mapping gives its resolved SDK if it
    has one that is not empty, and nothing otherwise. *)
Theorem results_to_flat_lookup results r :
  NoDup (map xcode results) -> In r results ->
  (forall v, ios_sdk r = Some v -> v <> "" ->
             get (_results_to_flat results) (xcode r) = Some v)
  /\ (ios_sdk r = None -> get (_results_to_flat results) (xcode r) = None)
  /\ (ios_sdk r = Some "" -> get (_results_to_flat results) (xcode r) = None).
Proof.
  intros N I. rewrite (flat_lookup results r N I). unfold usable.
  split; [|split].
  - intros v -> H. apply truthy_spec in H. now rewrite H.
  - now intros ->.
  - now intros ->.
Qed.

Lemma results_to_flat_lookup_witness :
  NoDup (map xcode [record_of "10.0" (Some "12.0"); record_of "8.0" None])
  /\ get (_results_to_flat
            [record_of "10.0" (Some "12.0"); record_of "8.0" None]) "10.0"
     = Some "12.0".
Proof.
  assert (N : NoDup (map xcode [record_of "10.0" (Some "12.0");
                                record_of "8.0" None])).
  { simpl. repeat constructor; simpl; intuition discriminate. }
  split; [exact N|].
  apply (proj1 (results_to_flat_lookup _ (record_of "10.0" (Some "12.0")) N
                  (or_introl eq_refl)) "12.0" eq_refl).
  discriminate.
Defined.

(** ** The version list of the [xcodes] tool *)

Lemma existsb_eqb_In x l : existsb (String.eqb x) l = true <-> In x l.
Proof.
  rewrite existsb_exists. split.
  - intros (y & I & E). apply String.eqb_eq in E. now subst.
  - intros I. exists x. split; [assumption | apply String.eqb_refl].
Qed.

Lemma set_add_In seen v x : In x (set_add seen v) <-> In x seen \/ x = v.
Proof.
  unfold set_add. destruct (existsb (String.eqb v) seen) eqn:E.
  - apply existsb_eqb_In in E. split; [now left | intros [I| ->]; assumption].
  - rewrite in_app_iff. simpl. intuition.
Qed.

Lemma xcodes_step_spec st v :
  (forall x, In x (fst st) <-> In x (snd st)) ->
  snd (xcodes_step st v)
  = (if existsb (String.eqb (_normalize_xcode_ver v)) (snd st)
     then snd st else snd st ++ [_normalize_xcode_ver v])
  /\ (forall x, In x (fst (xcodes_step st v)) <-> In x (snd (xcodes_step st v))).
Proof.
  intros Inv. unfold xcodes_step.
  set (n := _normalize_xcode_ver v).
  destruct (existsb (String.eqb n) (fst st)) eqn:E.
  - apply existsb_eqb_In, Inv, existsb_eqb_In in E. rewrite E. auto.
  - assert (E' : existsb (String.eqb n) (snd st) = false).
    { destruct (existsb (String.eqb n) (snd st)) eqn:E2; [|reflexivity].
      apply existsb_eqb_In, Inv, existsb_eqb_In in E2. congruence. }
    rewrite E'. simpl. split; [reflexivity|].
    intros x. rewrite set_add_In, in_app_iff, Inv. simpl. intuition.
Qed.

Lemma xcodes_fold_inv found : forall st,
  (forall x, In x (fst st) <-> In x (snd st)) ->
  forall x, In x (fst (fold_left xcodes_step found st))
            <-> In x (snd (fold_left xcodes_step found st)).
Proof.
  induction found as [|v found IH]; intros st Inv; simpl; [exact Inv|].
  apply IH. now apply xcodes_step_spec.
Qed.

Lemma xcodes_fold_spec found : forall st,
  (forall x, In x (fst st) <-> In x (snd st)) -> NoDup (snd st) ->
  NoDup (snd (fold_left xcodes_step found st))
  /\ (forall x, In x (snd (fold_left xcodes_step found st))
                <-> In x (snd st) \/ In x (map _normalize_xcode_ver found)).
Proof.
  induction found as [|v found IH]; intros st Inv N; simpl.
  - split; [assumption | intuition].
  - destruct (xcodes_step_spec st v Inv) as [S Inv'].
    assert (N' : NoDup (snd (xcodes_step st v))).
    { rewrite S. destruct (existsb _ (snd st)) eqn:E; [assumption|].
      apply NoDup_app; [assumption | repeat constructor; auto |].
      intros x I [<-|[]].
      apply existsb_eqb_In in I. congruence. }
    destruct (IH _ Inv' N') as [N'' M]. split; [assumption|].
    intros x. rewrite M, S.
    destruct (existsb _ (snd st)) eqn:E.
    + apply existsb_eqb_In in E. split; [intuition|].
      intros [I|[<-|I]]; auto.
    + rewrite in_app_iff. simpl. intuition.
Qed.

(** X7.  Without the tool, or on a timeout, [get_xcodes_versions]
    returns the empty list.  Otherwise it returns the normalised matches
    without repetition, each at the place of its first occurrence: every
    entry has a dot, an entry is in the list exactly when it is the
    normalisation of a match, and one more match at the end adds its
    normalisation at the end, or nothing if it is already there. *)
Theorem get_xcodes_versions_spec :
  get_xcodes_versions XcodesMissing = []
  /\ get_xcodes_versions XcodesTimedOut = []
  /\ (forall found,
        NoDup (get_xcodes_versions (XcodesPrinted found))
        /\ (forall x, In x (get_xcodes_versions (XcodesPrinted found))
                      <-> exists v, In v found /\ _normalize_xcode_ver v = x)
        /\ (forall x, In x (get_xcodes_versions (XcodesPrinted found)) ->
                      In "."%char (chars x)))
  /\ (forall found v,
        get_xcodes_versions (XcodesPrinted (found ++ [v]))
        = let sofar := get_xcodes_versions (XcodesPrinted found) in
          if existsb (String.eqb (_normalize_xcode_ver v)) sofar
          then sofar else sofar ++ [_normalize_xcode_ver v]).
Proof.
  assert (Inv0 : forall x : string,
             In x (fst (@nil string, @nil string))
             <-> In x (snd (@nil string, @nil string))) by (simpl; tauto).
  assert (M : forall found x,
             In x (get_xcodes_versions (XcodesPrinted found))
             <-> exists v, In v found /\ _normalize_xcode_ver v = x).
  { intros found x. simpl.
    destruct (xcodes_fold_spec found _ Inv0 (NoDup_nil _)) as [_ H].
    rewrite H, in_map_iff. simpl. split.
    - intros [[]|(v & E & I)]. now exists v.
    - intros (v & I & E). right. now exists v. }
  refine (conj eq_refl (conj eq_refl (conj _ _))).
  - intros found. split; [|split].
    + apply (xcodes_fold_spec found _ Inv0 (NoDup_nil _)).
    + apply M.
    + intros x I. apply M in I. destruct I as (v & _ & <-).
      apply contains_dot_In, normalize_has_dot.
  - intros found v. simpl. rewrite fold_left_app. simpl.
    apply xcodes_step_spec. now apply xcodes_fold_inv.
Qed.

(** ** The first SDK number found in a text *)

Lemma normalize_sdk_has_dot v : contains_dot (_normalize_sdk v) = true.
Proof. exact (normalize_has_dot v). Qed.





(** ** The xcodereleases parser *)

Lemma normalized_truthy v : truthy (_normalize_xcode_ver v) = true.
Proof.
  apply truthy_spec. intros E.
  pose proof (normalize_has_dot v) as H. rewrite E in H. discriminate.
Qed.

(** The test [not xcode_ver] never fires: a normalised version is not
    empty. *)
Lemma xcodereleases_step_usable st e :
  xcodereleases_step st e
  = match usable_entry e with
    | None => st
    | Some (v, s, true) => (setdefault (fst st) v s, snd st)
    | Some (v, s, false) => (fst st, setdefault (snd st) v s)
    end.
Proof.
  unfold xcodereleases_step, usable_entry.
  destruct (sdks_iOS e) as [|first rest]; [reflexivity|].
  rewrite normalized_truthy. simpl.
  destruct (truthy (get_default first "")); simpl; [|reflexivity].
  now destruct (release_release e && negb (release_beta e || release_rc e)).
Qed.

Lemma In_setdefault {V} (d : dict V) k v kv :
  In kv (setdefault d k v) -> kv = (k, v) \/ In kv d.
Proof.
  unfold setdefault. destruct (get d k); [now right|].
  intros H. apply in_app_or in H. destruct H as [H|[<-|[]]]; auto.
Qed.

Lemma usable_entry_dotted e v s st :
  usable_entry e = Some (v, s, st) ->
  contains_dot v = true /\ contains_dot s = true.
Proof.
  unfold usable_entry. destruct (sdks_iOS e) as [|first rest]; [discriminate|].
  destruct (truthy _); [|discriminate].
  intros [= <- <- _]. split; [apply normalize_has_dot | apply normalize_sdk_has_dot].
Qed.

Lemma first_entry_sdk_cons k b e entries :
  first_entry_sdk k b (e :: entries)
  = match usable_entry e with
    | Some (v, s, st) =>
        if String.eqb v k && Bool.eqb st b then Some s
        else first_entry_sdk k b entries
    | None => first_entry_sdk k b entries
    end.
Proof.
  unfold first_entry_sdk. simpl. unfold entry_for at 1.
  destruct (usable_entry e) as [[[v s] st]|] eqn:U; simpl; [|reflexivity].
  destruct (String.eqb v k && Bool.eqb st b); [|reflexivity].
  unfold entry_sdk. now rewrite U.
Qed.

Lemma xcodereleases_fold entries : forall st,
  wf (fst st) -> wf (snd st) ->
  dotted_entries (fst st) -> dotted_entries (snd st) ->
  let st' := fold_left xcodereleases_step entries st in
  wf (fst st') /\ wf (snd st')
  /\ dotted_entries (fst st') /\ dotted_entries (snd st')
  /\ (forall k, get (fst st') k
                = match get (fst st) k with
                  | Some v => Some v
                  | None => first_entry_sdk k true entries
                  end)
  /\ (forall k, get (snd st') k
                = match get (snd st) k with
                  | Some v => Some v
                  | None => first_entry_sdk k false entries
                  end).
Proof.
  induction entries as [|e entries IH]; intros st W1 W2 D1 D2; simpl.
  - refine (conj W1 (conj W2 (conj D1 (conj D2 (conj _ _)))));
      intros k; now destruct (get _ k).
  - rewrite xcodereleases_step_usable.
    destruct (usable_entry e) as [[[v s] [|]]|] eqn:U.
    + destruct (usable_entry_dotted _ _ _ _ U) as [Dv Ds].
      destruct (IH (setdefault (fst st) v s, snd st)) as (A & B & C & D & E & F);
        simpl; auto using wf_setdefault.
      { intros k' v' I. apply In_setdefault in I.
        destruct I as [[= -> ->]|I]; [auto | now apply D1]. }
      simpl in *. refine (conj A (conj B (conj C (conj D (conj _ _))))).
      * intros k. rewrite E, get_setdefault, first_entry_sdk_cons, U.
        destruct (get (fst st) k); [reflexivity|].
        rewrite andb_true_r. now destruct (String.eqb v k).
      * intros k. rewrite F, first_entry_sdk_cons, U.
        rewrite andb_false_r. reflexivity.
    + destruct (usable_entry_dotted _ _ _ _ U) as [Dv Ds].
      destruct (IH (fst st, setdefault (snd st) v s)) as (A & B & C & D & E & F);
        simpl; auto using wf_setdefault.
      { intros k' v' I. apply In_setdefault in I.
        destruct I as [[= -> ->]|I]; [auto | now apply D2]. }
      simpl in *. refine (conj A (conj B (conj C (conj D (conj _ _))))).
      * intros k. rewrite E, first_entry_sdk_cons, U.
        rewrite andb_false_r. reflexivity.
      * intros k. rewrite F, get_setdefault, first_entry_sdk_cons, U.
        destruct (get (snd st) k); [reflexivity|].
        rewrite andb_true_r. now destruct (String.eqb v k).
    + destruct (IH st) as (A & B & C & D & E & F); auto.
      refine (conj A (conj B (conj C (conj D (conj _ _)))));
        intros k; rewrite first_entry_sdk_cons, U; [apply E | apply F].
Qed.

Lemma merge_spec {V} (b : dict V) : forall a,
  wf a -> wf b ->
  wf (merge a b)
  /\ (forall k, get (merge a b) k
                = match get b k with Some v => Some v | None => get a k end)
  /\ (forall kv, In kv (merge a b) -> In kv a \/ In kv b).
Proof.
  unfold merge. induction b as [|[k0 v0] b IH]; intros a Wa Wb; simpl.
  - repeat split; auto.
  - inversion Wb as [|? ? N Wb']; subst.
    destruct (IH (set a k0 v0) (wf_set _ _ _ Wa) Wb') as (W & G & I).
    split; [exact W|]. split.
    + intros k. rewrite G, get_set.
      destruct (String.eqb_spec k0 k) as [->|Ne].
      * destruct (get b k) eqn:Gb; [|reflexivity].
        apply get_Some_key in Gb. contradiction.
      * reflexivity.
    + intros kv H. apply I in H. destruct H as [H|H]; [|now right; right].
      apply In_set in H. destruct H as [->|H]; [right; now left | now left].
Qed.

Lemma set_all_get url ks : forall (urls : dict string) k,
  get (fold_left (fun u x => set u x url) ks urls) k
  = if existsb (String.eqb k) ks then Some url else get urls k.
Proof.
  induction ks as [|x ks IH]; intros urls k; simpl; [reflexivity|].
  rewrite IH, get_set.
  destruct (existsb (String.eqb k) ks); [now rewrite orb_true_r|].
  rewrite orb_false_r, (String.eqb_sym k x). reflexivity.
Qed.

(** X9.  In the mapping [_parse_xcodereleases_json] returns, a version
    has the SDK of the first stable entry for it; only when no entry for
    it is stable, that of its first entry at all.  Entries without an iOS
    SDK number are skipped, an entry without a version number is filed
    under [".0"]; every key and every value has a dot.  After the call the
    URL table of the source holds the given URL for each version of the
    mapping and is otherwise unchanged. *)
Theorem parse_xcodereleases_spec entries ver_urls url :
  wf (fst (_parse_xcodereleases_json entries ver_urls url))
  /\ (forall k,
        get (fst (_parse_xcodereleases_json entries ver_urls url)) k
        = match first_entry_sdk k true entries with
          | Some sdk => Some sdk
          | None => first_entry_sdk k false entries
          end)
  /\ (forall k v,
        In (k, v) (fst (_parse_xcodereleases_json entries ver_urls url)) ->
        In "."%char (chars k) /\ In "."%char (chars v))
  /\ (forall e,
        version_number e = None ->
        usable_entry e <> None ->
        entry_for ".0" (release_release e
                        && negb (release_beta e || release_rc e)) e = true)
  /\ (forall k,
        get (snd (_parse_xcodereleases_json entries ver_urls url)) k
        = if mem (fst (_parse_xcodereleases_json entries ver_urls url)) k
          then Some url else get ver_urls k).
Proof.
  unfold _parse_xcodereleases_json. simpl.
  assert (D0 : dotted_entries []) by (intros k v []).
  assert (W0 : wf (@nil (string * string))) by constructor.
  destruct (xcodereleases_fold entries ([], []) W0 W0 D0 D0)
    as (W1 & W2 & D1 & D2 & G1 & G2).
  simpl in G1, G2.
  set (st := fold_left xcodereleases_step entries ([], [])) in *.
  destruct (merge_spec (fst st) (snd st) W2 W1) as (W & G & I).
  refine (conj W (conj _ (conj _ (conj _ _)))).
  - intros k. now rewrite G, G1, G2.
  - intros k v H. apply I in H. rewrite <- !contains_dot_In.
    destruct H as [H|H]; [now apply D2 | now apply D1].
  - intros e N U. unfold entry_for, usable_entry in *. rewrite N.
    destruct (sdks_iOS e) as [|first rest]; [congruence|].
    destruct (truthy (get_default first "")); [|congruence].
    simpl. now rewrite eqb_reflx.
  - intros k. rewrite set_all_get. unfold mem.
    destruct (existsb (String.eqb k) (keys (merge (snd st) (fst st)))) eqn:E.
    + apply existsb_eqb_In, In_key_get in E. destruct E as [v ->]. reflexivity.
    + destruct (get (merge (snd st) (fst st)) k) eqn:Gk; [|reflexivity].
      apply get_Some_key, existsb_eqb_In in Gk. congruence.
Qed.

(** ** [int] and [str] *)

Lemma string_append_nil_r s : (s ++ "")%string = s.
Proof. induction s as [|c s IH]; simpl; [reflexivity | now rewrite IH]. Qed.

Lemma string_append_assoc a b c :
  ((a ++ b) ++ c)%string = (a ++ (b ++ c))%string.
Proof. induction a as [|x a IH]; simpl; [reflexivity | now rewrite IH]. Qed.

Lemma string_rev_append a b :
  string_rev (a ++ b) = (string_rev b ++ string_rev a)%string.
Proof.
  induction a as [|x a IH]; simpl.
  - now rewrite string_append_nil_r.
  - now rewrite IH, string_append_assoc.
Qed.

Lemma string_rev_involutive s : string_rev (string_rev s) = s.
Proof.
  induction s as [|c s IH]; simpl; [reflexivity|].
  rewrite string_rev_append, IH. reflexivity.
Qed.

Lemma spaceless_append a b :
  spaceless (a ++ b) = spaceless a && spaceless b.
Proof.
  induction a as [|x a IH]; simpl; [reflexivity|].
  now rewrite IH, andb_assoc.
Qed.

Lemma spaceless_rev s : spaceless (string_rev s) = spaceless s.
Proof.
  induction s as [|c s IH]; simpl; [reflexivity|].
  rewrite spaceless_append, IH. simpl.
  rewrite andb_true_r. apply andb_comm.
Qed.

Lemma lstrip_spaceless s : spaceless s = true -> lstrip s = s.
Proof.
  destruct s as [|c s]; simpl; [reflexivity|].
  destruct (is_space c); [discriminate | reflexivity].
Qed.

Lemma strip_spaceless s : spaceless s = true -> strip s = s.
Proof.
  intros H. unfold strip. rewrite (lstrip_spaceless s H).
  rewrite lstrip_spaceless by now rewrite spaceless_rev.
  apply string_rev_involutive.
Qed.

Lemma parse_digits_uint d : forall acc,
  parse_digits (DecimalString.NilEmpty.string_of_uint d) acc true
  = Some (uint_value d acc).
Proof.
  induction d; intros acc; simpl; try reflexivity;
    rewrite IHd; f_equal; f_equal; lia.
Qed.

Lemma parse_digits_uint_start d :
  d <> Decimal.Nil ->
  parse_digits (DecimalString.NilEmpty.string_of_uint d) 0%Z false
  = Some (uint_value d 0%Z).
Proof.
  intros N. rewrite <- parse_digits_uint.
  destruct d; [congruence | reflexivity ..].
Qed.

Lemma uint_value_pos d : forall p,
  uint_value d (Zpos p) = Zpos (Pos.of_uint_acc d p).
Proof.
  induction d; intros p; cbn [uint_value Pos.of_uint_acc]; try reflexivity;
    rewrite <- IHd; f_equal; lia.
Qed.

Lemma uint_value_zero d : uint_value d 0%Z = Z.of_N (Pos.of_uint d).
Proof.
  induction d; simpl; try reflexivity; try exact IHd;
    change (10 * 0)%Z with 0%Z; simpl; apply uint_value_pos.
Qed.

Lemma uint_value_to_uint p : uint_value (Pos.to_uint p) 0%Z = Zpos p.
Proof.
  rewrite uint_value_zero, DecimalPos.Unsigned.of_to. reflexivity.
Qed.

Lemma spaceless_uint d :
  spaceless (DecimalString.NilEmpty.string_of_uint d) = true.
Proof. induction d; simpl; auto. Qed.

Lemma dotless_uint d :
  contains_dot (DecimalString.NilEmpty.string_of_uint d) = false.
Proof. induction d; simpl; auto. Qed.

Lemma py_str_pos p :
  py_str (Zpos p) = DecimalString.NilEmpty.string_of_uint (Pos.to_uint p).
Proof.
  unfold py_str. simpl. unfold DecimalString.NilZero.string_of_uint.
  pose proof (DecimalPos.Unsigned.to_uint_nonnil p) as N.
  destruct (Pos.to_uint p); [congruence | reflexivity ..].
Qed.

Lemma py_str_neg p :
  py_str (Zneg p)
  = String "-" (DecimalString.NilEmpty.string_of_uint (Pos.to_uint p)).
Proof.
  unfold py_str. simpl. unfold DecimalString.NilZero.string_of_uint.
  pose proof (DecimalPos.Unsigned.to_uint_nonnil p) as N.
  destruct (Pos.to_uint p); [congruence | reflexivity ..].
Qed.

Lemma py_int_uint d :
  d <> Decimal.Nil ->
  py_int (DecimalString.NilEmpty.string_of_uint d) = Some (uint_value d 0%Z).
Proof.
  intros N. unfold py_int. rewrite (strip_spaceless _ (spaceless_uint d)).
  rewrite <- (parse_digits_uint_start d N).
  destruct d; [congruence | reflexivity ..].
Qed.

(** [int(str(n)) == n] *)
Lemma py_int_py_str n : py_int (py_str n) = Some n.
Proof.
  destruct n as [|p|p].
  - reflexivity.
  - rewrite py_str_pos, py_int_uint by apply DecimalPos.Unsigned.to_uint_nonnil.
    now rewrite uint_value_to_uint.
  - rewrite py_str_neg. unfold py_int.
    rewrite strip_spaceless by (simpl; apply spaceless_uint).
    rewrite parse_digits_uint_start by apply DecimalPos.Unsigned.to_uint_nonnil.
    simpl. now rewrite uint_value_to_uint.
Qed.

Lemma py_str_dotless n : contains_dot (py_str n) = false.
Proof.
  destruct n as [|p|p]; [reflexivity | |].
  - rewrite py_str_pos. apply dotless_uint.
  - rewrite py_str_neg. simpl. apply dotless_uint.
Qed.

(** ** Slugs of the release-note probes *)

Lemma split_dot_dotless s : contains_dot s = false -> split_dot s = [s].
Proof.
  induction s as [|c s IH]; simpl; [reflexivity|].
  destruct (Ascii.eqb c "."%char); [discriminate|].
  intros H. now rewrite (IH H).
Qed.

Lemma split_dot_app s t :
  contains_dot s = false ->
  split_dot (s ++ String "."%char t) = s :: split_dot t.
Proof.
  induction s as [|c s IH]; simpl; [reflexivity|].
  destruct (Ascii.eqb c "."%char); [discriminate|].
  intros H. now rewrite (IH H).
Qed.

Lemma ver_key_two a b :
  ver_key (py_str a ++ "." ++ py_str b) = [a; b].
Proof.
  unfold ver_key. simpl String.append.
  rewrite split_dot_app by apply py_str_dotless.
  rewrite split_dot_dotless by apply py_str_dotless.
  simpl. now rewrite !py_int_py_str.
Qed.

Lemma ver_key_three a b c :
  ver_key (py_str a ++ "." ++ py_str b ++ "." ++ py_str c) = [a; b; c].
Proof.
  unfold ver_key. simpl String.append.
  rewrite split_dot_app by apply py_str_dotless.
  rewrite split_dot_app by apply py_str_dotless.
  rewrite split_dot_dotless by apply py_str_dotless.
  simpl. now rewrite !py_int_py_str.
Qed.

Lemma slug_join_dotless s t :
  contains_dot s = false -> contains_dot t = false ->
  contains_dot (s ++ "_" ++ t) = false.
Proof.
  intros Hs Ht. rewrite contains_dot_append, Hs. simpl. exact Ht.
Qed.

Lemma make_slug_key major minor patch :
  ver_key (fst (_make_slug major minor patch))
  = if Z.eqb patch 0 then [major; minor] else [major; minor; patch].
Proof.
  unfold _make_slug.
  destruct (Z.eqb_spec minor 0) as [->|Nm];
    destruct (Z.eqb_spec patch 0) as [->|Np]; cbn [fst andb].
  - exact (ver_key_two major 0).
  - exact (ver_key_three major 0 patch).
  - exact (ver_key_two major minor).
  - exact (ver_key_three major minor patch).
Qed.

(** X10.  The version string [_make_slug] builds is already normalised,
    and its sort key is the list of the numbers it was built from, the
    patch number left out when it is 0; so two different probes, the patch
    counted only when not 0, never get the same version string.  The slug
    has no dot. *)
Theorem make_slug_spec major minor patch :
  _normalize_xcode_ver (fst (_make_slug major minor patch))
  = fst (_make_slug major minor patch)
  /\ ver_key (fst (_make_slug major minor patch))
     = (if Z.eqb patch 0 then [major; minor] else [major; minor; patch])
  /\ dotless (snd (_make_slug major minor patch))
  /\ (forall major' minor' patch',
        fst (_make_slug major' minor' patch')
        = fst (_make_slug major minor patch) ->
        major' = major /\ minor' = minor /\ patch' = patch).
Proof.
  refine (conj _ (conj (make_slug_key _ _ _) (conj _ _))).
  - apply normalize_fixed. unfold _make_slug.
    destruct (Z.eqb minor 0 && Z.eqb patch 0); [|destruct (Z.eqb patch 0)];
      simpl fst; rewrite contains_dot_append, py_str_dotless; reflexivity.
  - apply contains_dot_false. unfold _make_slug.
    destruct (Z.eqb minor 0 && Z.eqb patch 0); [|destruct (Z.eqb patch 0)];
      cbn [snd];
      repeat (apply slug_join_dotless; [apply py_str_dotless|]);
      apply py_str_dotless.
  - intros major' minor' patch' E.
    apply (f_equal ver_key) in E. rewrite !make_slug_key in E.
    destruct (Z.eqb_spec patch' 0) as [Z'|N'];
      destruct (Z.eqb_spec patch 0) as [Z0|N]; try discriminate E.
    + injection E as -> ->. repeat split. congruence.
    + injection E as -> -> ->. repeat split.
Qed.

(** ** Runs of [main] *)

Lemma cross_reference_xcode urls ver srcs r :
  cross_reference urls ver srcs = Some r -> xcode r = ver.
Proof.
  intros H.
  destruct (cross_reference_cases urls ver srcs)
    as [[_ E]|[(u & k & _ & _ & E)|(a & b & rest & k & sdk & _ & _ & _ & E)]];
    rewrite E in H; injection H as <-; reflexivity.
Qed.

Lemma cross_reference_sdk_status urls ver srcs r :
  cross_reference urls ver srcs = Some r ->
  (status r = not_found <-> ios_sdk r = None)
  /\ (found_values ver srcs = [] <-> status r = not_found).
Proof.
  intros H.
  destruct (cross_reference_cases urls ver srcs)
    as [[F E]|[(u & k & U & _ & E)|(a & b & rest & k & sdk & U & _ & _ & E)]];
    rewrite E in H; injection H as <-; simpl.
  - tauto.
  - split; split; try discriminate.
    + destruct (Nat.ltb 1 _); discriminate.
    + intros F. rewrite F in U. discriminate.
    + destruct (Nat.ltb 1 _); discriminate.
  - split; split; try discriminate.
    intros F. rewrite F in U. discriminate.
Qed.

Lemma map_raise_Forall2 {A B} (f : A -> option B) l : forall ys,
  map_raise f l = Some ys -> Forall2 (fun x y => f x = Some y) l ys.
Proof.
  induction l as [|x l IH]; simpl; intros ys H.
  - injection H as <-. constructor.
  - destruct (f x) as [y|] eqn:E; [|discriminate].
    destruct (map_raise f l) as [ys'|]; [|discriminate].
    injection H as <-. constructor; auto.
Qed.

Lemma Forall2_map_back {A B} (P : A -> B -> Prop) (g : B -> A) l ys :
  Forall2 P l ys -> (forall x y, P x y -> g y = x) -> map g ys = l.
Proof.
  induction 1 as [|x y l ys H F IH]; intros G; simpl; [reflexivity|].
  rewrite (G _ _ H), IH; auto.
Qed.

Lemma Forall2_In_r {A B} (P : A -> B -> Prop) l ys y :
  Forall2 P l ys -> In y ys -> exists x, In x l /\ P x y.
Proof.
  induction 1 as [|x0 y0 l ys H F IH]; simpl; [tauto|].
  intros [<-|I].
  - exists x0. auto.
  - destruct (IH I) as (x & Ix & Px). exists x. auto.
Qed.

Lemma Forall2_In_l {A B} (P : A -> B -> Prop) l ys x :
  Forall2 P l ys -> In x l -> exists y, In y ys /\ P x y.
Proof.
  induction 1 as [|x0 y0 l ys H F IH]; simpl; [tauto|].
  intros [<-|I].
  - exists y0. auto.
  - destruct (IH I) as (y & Iy & Py). exists y. auto.
Qed.

(** A run that gets past the universe check. *)
Lemma main_nonempty args w :
  universe args w <> [] ->
  exists results,
    Forall2 (fun ver r =>
               cross_reference (version_urls w) ver (engine_sources w) = Some r)
            (sorted_by_reverse ver_key (universe args w)) results
    /\ main args w
       = Some {| run_exit :=
                   ExitInt (if map_changed (previous w)
                                 (_results_to_flat (output_rows args results))
                            then 1%Z else 0%Z);
                 run_records := results;
                 run_written :=
                   Some (if detailed args
                         then DetailedFiles (output_rows args results)
                         else FlatFiles
                                (_results_to_flat (output_rows args results))) |}.
Proof.
  unfold main, universe, engine_sources. intros N.
  destruct (all_versions _ _) as [|v vs] eqn:U; [congruence|].
  destruct (map_raise_total
              (fun ver => cross_reference (version_urls w) ver
                            (ordered_sources (raw_sources (fetched w))))
              (sorted_by_reverse ver_key (v :: vs))
              (fun x => cross_reference_total _ _ _)) as [results R].
  exists results. split; [now apply map_raise_Forall2 | now rewrite R].
Qed.

Lemma main_empty args w :
  universe args w = [] ->
  main args w = Some {| run_exit := ExitMessage NO_VERSIONS_MESSAGE;
                        run_records := []; run_written := None |}.
Proof. apply main_empty_universe. Qed.

(** *** The universe *)

Lemma set_add_NoDup seen v : NoDup seen -> NoDup (set_add seen v).
Proof.
  intros N. unfold set_add. destruct (existsb (String.eqb v) seen) eqn:E; [assumption|].
  apply NoDup_app; [assumption | repeat constructor; auto |].
  intros x I [<-|[]]. apply existsb_eqb_In in I. congruence.
Qed.

Lemma fold_set_add_spec l : forall acc,
  NoDup acc ->
  NoDup (fold_left set_add l acc)
  /\ forall x, In x (fold_left set_add l acc) <-> In x acc \/ In x l.
Proof.
  induction l as [|v l IH]; intros acc N; simpl.
  - split; [assumption | intuition].
  - destruct (IH _ (set_add_NoDup acc v N)) as [N' M]. split; [assumption|].
    intros x. rewrite M, set_add_In. intuition.
Qed.

Lemma all_versions_fold (ordered : dict (dict string)) : forall acc,
  NoDup acc ->
  NoDup (fold_left (fun acc src => fold_left set_add (keys (snd src)) acc)
                   ordered acc)
  /\ forall v,
       In v (fold_left (fun acc src => fold_left set_add (keys (snd src)) acc)
                       ordered acc)
       <-> In v acc \/ exists s d, In (s, d) ordered /\ In v (keys d).
Proof.
  induction ordered as [|[s d] ordered IH]; intros acc N; simpl.
  - split; [assumption|]. intros v. split; [now left|].
    intros [H|(s & d & [] & _)]. assumption.
  - destruct (fold_set_add_spec (keys d) acc N) as [N1 M1].
    destruct (IH _ N1) as [N2 M2]. split; [assumption|].
    intros v. rewrite M2, M1. split.
    + intros [[H|H]|(s' & d' & I & K)]; auto.
      * right. exists s, d. auto.
      * right. exists s', d'. auto.
    + intros [H|(s' & d' & [[= -> ->]|I] & K)]; auto.
      right. exists s', d'. auto.
Qed.

Lemma all_versions_spec xs ordered :
  NoDup (all_versions xs ordered)
  /\ forall v, In v (all_versions xs ordered)
               <-> In v xs \/ exists s d, In (s, d) ordered /\ In v (keys d).
Proof.
  unfold all_versions.
  destruct (fold_set_add_spec xs [] (NoDup_nil _)) as [N0 M0].
  destruct (all_versions_fold ordered _ N0) as [N M]. split; [assumption|].
  intros v. rewrite M, M0. simpl. intuition.
Qed.

(** *** Sorting newest first *)




Lemma sorted_by_reverse_permutation {A} (key : A -> list Z) l :
  Permutation (sorted_by_reverse key l) l.
Proof.
  unfold sorted_by_reverse.
  rewrite <- Permutation_rev, sorted_by_permutation, <- Permutation_rev.
  reflexivity.
Qed.



(** *** What the universe holds *)

Lemma get_map_values {V W} (f : V -> W) (d : dict V) k :
  get (map (fun item => (fst item, f (snd item))) d) k = option_map f (get d k).
Proof.
  induction d as [|[k0 v0] d IH]; simpl; [reflexivity|].
  now destruct (String.eqb k0 k).
Qed.

Lemma raw_sources_fold l : forall acc,
  NoDup (keys l) -> (forall k, In k (keys l) -> ~ In k (keys acc)) ->
  fold_left (fun raw item => set raw (fst item) (_normalize_source_keys (snd item)))
            l acc
  = acc ++ map (fun item => (fst item, _normalize_source_keys (snd item))) l.
Proof.
  induction l as [|[s d] l IH]; intros acc N F; simpl.
  - now rewrite app_nil_r.
  - inversion N as [|? ? Ns N']; subst.
    rewrite (set_fresh acc s _ (F s (or_introl eq_refl))).
    rewrite IH; auto.
    + now rewrite <- app_assoc.
    + intros k I. unfold keys. rewrite map_app. intros J.
      apply in_app_or in J. destruct J as [J|[<-|[]]]; [|contradiction].
      apply (F k); [now right | exact J].
Qed.

Lemma get_raw_sources fetched s :
  wf fetched ->
  get (raw_sources fetched) s = option_map _normalize_source_keys (get fetched s).
Proof.
  intros W. unfold raw_sources. rewrite raw_sources_fold; auto.
  apply get_map_values.
Qed.

Lemma raw_sources_In l : forall acc s d,
  In (s, d)
     (fold_left (fun raw item => set raw (fst item) (_normalize_source_keys (snd item)))
                l acc) ->
  In (s, d) acc
  \/ exists data, In (s, data) l /\ d = _normalize_source_keys data.
Proof.
  induction l as [|[s0 d0] l IH]; intros acc s d H; simpl in *; [now left|].
  apply IH in H. destruct H as [H|(data & I & E)].
  - apply In_set in H. destruct H as [[= -> ->]|H]; [|now left].
    right. exists d0. auto.
  - right. exists data. auto.
Qed.

Lemma engine_sources_In w s d :
  In (s, d) (engine_sources w)
  <-> In s SOURCE_NAMES
      /\ d = match get (raw_sources (fetched w)) s with
             | Some d' => d'
             | None => []
             end.
Proof.
  unfold engine_sources, ordered_sources. rewrite in_map_iff. split.
  - intros (s' & [= -> <-] & I). auto.
  - intros [I ->]. exists s. auto.
Qed.

Lemma engine_sources_dotted w s d k :
  In (s, d) (engine_sources w) -> In k (keys d) -> contains_dot k = true.
Proof.
  intros I K. apply engine_sources_In in I. destruct I as [_ ->].
  destruct (get (raw_sources (fetched w)) s) as [d'|] eqn:G; [|destruct K].
  apply get_In in G. unfold raw_sources in G. apply raw_sources_In in G.
  destruct G as [[]|(data & _ & ->)].
  exact (normalize_fold_dotted data [] (fun k' (H : In k' []) => match H with end)
           k K).
Qed.

(** X12.  The universe has no repetition.  A version is in it exactly
    when the tool listed it (and was not skipped) or it is a key of one of
    the eight ordered source maps; when the fetch results carry distinct
    names, the latter means that it is a normalised key of the data fetched
    for a source of [SOURCE_NAMES].  A version that comes from a source
    map has a dot. *)
Theorem universe_spec args w :
  NoDup (universe args w)
  /\ (forall v,
        In v (universe args w)
        <-> (skip_xcodes args = false /\ In v (xcodes_cli w))
            \/ exists s d, In (s, d) (engine_sources w) /\ In v (keys d))
  /\ (wf (fetched w) ->
      forall v,
        (exists s d, In (s, d) (engine_sources w) /\ In v (keys d))
        <-> exists s data,
              In s SOURCE_NAMES /\ In (s, data) (fetched w)
              /\ In v (keys (_normalize_source_keys data)))
  /\ (forall v s d,
        In (s, d) (engine_sources w) -> In v (keys d) -> In "."%char (chars v)).
Proof.
  unfold universe.
  destruct (all_versions_spec (if skip_xcodes args then [] else xcodes_cli w)
              (engine_sources w)) as [N M].
  refine (conj N (conj _ (conj _ _))).
  - intros v. rewrite M. destruct (skip_xcodes args); simpl; intuition.
    discriminate.
  - intros W v. split.
    + intros (s & d & I & K). apply engine_sources_In in I. destruct I as [I ->].
      rewrite (get_raw_sources _ _ W) in K.
      destruct (get (fetched w) s) as [data|] eqn:G; simpl in K; [|destruct K].
      exists s, data. split; [assumption|]. split; [now apply get_In | assumption].
    + intros (s & data & I & F & K).
      exists s, (_normalize_source_keys data). split; [|assumption].
      apply engine_sources_In. split; [assumption|].
      now rewrite (get_raw_sources _ _ W), (In_get _ _ _ W F).
  - intros v s d I K. apply contains_dot_In.
    exact (engine_sources_dotted w s d v I K).
Qed.

Lemma universe_spec_witness :
  wf (fetched silent_world)
  /\ ~ exists s d, In (s, d) (engine_sources silent_world) /\ In "9.0" (keys d).
Proof.
  assert (W : wf (fetched silent_world)).
  { unfold wf. simpl. repeat constructor; simpl; intuition discriminate. }
  split; [exact W|].
  intros H.
  apply (proj1 (proj2 (proj2 (universe_spec default_arguments silent_world))) W) in H.
  destruct H as (s & data & _ & F & K). simpl in F.
  repeat (destruct F as [[= <- <-]|F]; [destruct K|]). destruct F.
Defined.

(** *** The order in which the fetches complete *)

Lemma permutation_wf {V} (d1 d2 : dict V) :
  wf d1 -> Permutation d1 d2 -> wf d2.
Proof.
  intros W P. unfold wf, keys. eapply Permutation_NoDup; [|exact W].
  now apply Permutation_map.
Qed.

(** X13.  When the fetch results carry distinct source names, the order
    in which the fetches complete has no effect: the sources handed to the
    engine are the same, and so is the whole outcome of the run. *)
Theorem fetch_order_irrelevant args w fetched' :
  wf (fetched w) -> Permutation (fetched w) fetched' ->
  engine_sources (with_fetched w fetched') = engine_sources w
  /\ main args (with_fetched w fetched') = main args w.
Proof.
  intros W P.
  assert (E : engine_sources (with_fetched w fetched') = engine_sources w).
  { unfold engine_sources, ordered_sources. cbn [with_fetched fetched].
    apply map_ext. intros s.
    rewrite (get_raw_sources _ _ W).
    rewrite (get_raw_sources _ _ (permutation_wf _ _ W P)).
    now rewrite (get_permutation _ _ s W P). }
  split; [exact E|].
  unfold main.
  cbn [with_fetched fetched xcodes_cli version_urls previous].
  change (ordered_sources (raw_sources fetched'))
    with (engine_sources (with_fetched w fetched')).
  change (ordered_sources (raw_sources (fetched w))) with (engine_sources w).
  now rewrite E.
Qed.

Lemma fetch_order_irrelevant_witness :
  wf [("apple_support", [("9", "11.0")]); ("xcodereleases", [("9.0", "11.1")])]
  /\ main default_arguments
       {| xcodes_cli := [];
          fetched := [("xcodereleases", [("9.0", "11.1")]);
                      ("apple_support", [("9", "11.0")])];
          version_urls := []; previous := NoFile |}
     = main default_arguments
         {| xcodes_cli := [];
            fetched := [("apple_support", [("9", "11.0")]);
                        ("xcodereleases", [("9.0", "11.1")])];
            version_urls := []; previous := NoFile |}.
Proof.
  assert (W : wf [("apple_support", [("9", "11.0")]);
                  ("xcodereleases", [("9.0", "11.1")])]).
  { unfold wf. simpl. repeat constructor; simpl; intuition discriminate. }
  split; [exact W|].
  exact (proj2 (fetch_order_irrelevant default_arguments
                  {| xcodes_cli := [];
                     fetched := [("apple_support", [("9", "11.0")]);
                                 ("xcodereleases", [("9.0", "11.1")])];
                     version_urls := []; previous := NoFile |}
                  [("xcodereleases", [("9.0", "11.1")]);
                   ("apple_support", [("9", "11.0")])]
                  W (perm_swap _ _ _))).
Defined.

(** *** Running again on the file just written *)

Lemma flat_unchanged flat :
  wf flat -> map_changed (Loaded (json_of_flat flat)) flat = false.
Proof.
  intros W. simpl. apply negb_false_iff.
  assert (Wm : wf (map (fun kv : string * string => (fst kv, JString (snd kv))) flat)).
  { unfold wf, keys. rewrite map_map. simpl. exact W. }
  apply (eqb_agree json_is_string _ _ Wm W). intros k. unfold agree_at.
  rewrite (get_map_values JString flat k).
  destruct (get flat k) as [v|]; simpl; [apply String.eqb_refl | exact I].
Qed.

Lemma detailed_changed ts flat :
  map_changed (Loaded (json_of_detailed ts)) flat = true.
Proof.
  simpl. apply negb_true_iff. unfold PyDict.eqb. simpl.
  destruct (get flat "metadata"); simpl; apply andb_false_r.
Qed.

Lemma Forall2_functional {A B} (P : A -> B -> Prop) l ys ys' :
  (forall x y y', P x y -> P x y' -> y = y') ->
  Forall2 P l ys -> Forall2 P l ys' -> ys = ys'.
Proof.
  intros Fn F. revert ys'. induction F as [|x y l ys H F IH]; intros ys' F'.
  - now inversion F'.
  - inversion F' as [|? y' ? ys'' H' F'']; subst.
    f_equal; [exact (Fn _ _ _ H H') | now apply IH].
Qed.

Lemma flat_unchanged_permutation flat flat' :
  wf flat -> Permutation flat flat' ->
  map_changed (Loaded (json_of_flat flat)) flat' = false.
Proof.
  intros W P. simpl. apply negb_false_iff.
  assert (Wm : wf (map (fun kv : string * string => (fst kv, JString (snd kv))) flat)).
  { unfold wf, keys. rewrite map_map. simpl. exact W. }
  apply (eqb_agree json_is_string _ _ Wm (permutation_wf _ _ W P)).
  intros k. unfold agree_at.
  rewrite (get_map_values JString flat k), <- (get_permutation _ _ k W P).
  destruct (get flat k) as [v|]; simpl; [apply String.eqb_refl | exact I].
Qed.

(** X14.  The file a run leaves at [args.json] decides the verdict of
    the next run.  After a flat output, comparing it with the same
    mapping, its entries in any order, gives "unchanged"; after a detailed
    output the file is never equal to a flat mapping, and every comparison
    gives "changed".  So a second run of [main] on the same inputs exits
    with 0 after a flat output and with 1 after a detailed one. *)
Theorem rerun_verdict args w generated_at :
  exists r, main args w = Some r
    /\ (forall flat,
          run_written r = Some (FlatFiles flat) ->
          forall flat',
            Permutation flat flat' ->
            map_changed (Loaded (file_after generated_at (FlatFiles flat))) flat'
            = false)
    /\ (forall rows,
          run_written r = Some (DetailedFiles rows) ->
          forall flat',
            map_changed (Loaded (file_after generated_at (DetailedFiles rows)))
                        flat'
            = true)
    /\ (forall out,
          run_written r = Some out ->
          exists r',
            main args (with_previous w (Loaded (file_after generated_at out)))
            = Some r'
            /\ exit_status (run_exit r')
               = if detailed args then EXIT_CHANGED else EXIT_UNCHANGED).
Proof.
  destruct (universe args w) as [|v vs] eqn:U.
  - eexists. split; [now apply main_empty|]. simpl.
    repeat split; discriminate.
  - assert (N : universe args w <> []) by (rewrite U; discriminate).
    destruct (main_nonempty args w N) as (results & F & E).
    eexists. split; [exact E|]. cbn [run_written].
    refine (conj _ (conj _ _)).
    + intros flat Wr flat' P. cbn [file_after].
      apply flat_unchanged_permutation; [|exact P].
      destruct (detailed args); [discriminate Wr|]. injection Wr as <-.
      apply flat_fold_wf. constructor.
    + intros rows _ flat'. cbn [file_after]. apply detailed_changed.
    + intros out [= <-].
      set (w' := with_previous w
                   (Loaded (file_after generated_at
                              (if detailed args
                               then DetailedFiles (output_rows args results)
                               else FlatFiles
                                      (_results_to_flat
                                         (output_rows args results)))))).
      assert (N' : universe args w' <> []) by exact N.
      destruct (main_nonempty args w' N') as (results' & F' & E').
      assert (R : results' = results).
      { refine (Forall2_functional _ _ _ _ _ F' F).
        intros x y y' H H'. simpl in H, H'. congruence. }
      subst results'. eexists. split; [exact E'|].
      cbn [run_exit exit_status].
      unfold w'. cbn [with_previous previous].
      destruct (detailed args); cbn [file_after].
      * now rewrite detailed_changed.
      * rewrite flat_unchanged; [reflexivity|].
        apply flat_fold_wf. constructor.
Qed.

Lemma rerun_verdict_witness :
  map_changed (Loaded (file_after "" (FlatFiles [("9.0", "11.0")])))
              [("9.0", "11.0")] = false
  /\ exists r', main default_arguments
                 (with_previous
                    {| xcodes_cli := ["9.0"];
                       fetched := [("apple_support", [("9", "11.0")])];
                       version_urls := []; previous := NoFile |}
                    (Loaded (file_after "" (FlatFiles [("9.0", "11.0")]))))
               = Some r'
       /\ exit_status (run_exit r') = EXIT_UNCHANGED.
Proof.
  destruct (rerun_verdict default_arguments
              {| xcodes_cli := ["9.0"];
                 fetched := [("apple_support", [("9", "11.0")])];
                 version_urls := []; previous := NoFile |} "")
    as (r & E & Hflat & _ & H).
  injection E as <-.
  split.
  - exact (Hflat [("9.0", "11.0")] eq_refl [("9.0", "11.0")]
             (Permutation_refl _)).
  - destruct (H (FlatFiles [("9.0", "11.0")]) eq_refl) as (r' & E' & X).
    exists r'. split; [exact E' | exact X].
Defined.

(** *** Versions without data, and the conflicts-only output *)

Lemma flat_keys results k :
  In k (keys (_results_to_flat results))
  <-> exists r, In r results /\ xcode r = k /\ usable r = true.
Proof.
  unfold _results_to_flat. rewrite flat_fold_keys. simpl. split.
  - intros [[]|(r & I & E & U)]. apply sorted_by_In in I. now exists r.
  - intros (r & I & E & U). right. exists r.
    repeat split; auto. now apply sorted_by_In.
Qed.

Lemma output_rows_In args results r :
  In r (output_rows args results) ->
  In r results
  /\ (conflicts_only args = true ->
      status r = conflict \/ status r = not_found).
Proof.
  unfold output_rows. destruct (conflicts_only args).
  - intros H. apply filter_In in H. destruct H as [I S]. split; [assumption|].
    intros _. destruct (status r); simpl in S; auto; discriminate.
  - intros H. split; [assumption | discriminate].
Qed.

Lemma main_records_distinct args w results :
  Forall2 (fun ver r =>
             cross_reference (version_urls w) ver (engine_sources w) = Some r)
          (sorted_by_reverse ver_key (universe args w)) results ->
  NoDup (map xcode results).
Proof.
  intros F.
  rewrite (Forall2_map_back _ xcode _ _ F)
    by (intros x y H; now apply cross_reference_xcode in H).
  apply (Permutation_NoDup
           (Permutation_sym (sorted_by_reverse_permutation ver_key _))).
  apply all_versions_spec.
Qed.

(** X15.  A version that the tool lists, but for which no source has an
    entry, directly or under its major.minor form, still gets its record:
    [not_found], without an SDK; and the flat output has no entry for
    it. *)
Theorem enumeration_only_version args w v :
  skip_xcodes args = false -> In v (xcodes_cli w) ->
  (forall s d, In (s, d) (engine_sources w) -> lookup_source d v = None) ->
  exists r rec,
    main args w = Some r
    /\ In rec (run_records r) /\ xcode rec = v
    /\ status rec = not_found /\ ios_sdk rec = None
    /\ forall flat, run_written r = Some (FlatFiles flat) -> get flat v = None.
Proof.
  intros S I L.
  assert (Iu : In v (universe args w)).
  { unfold universe. apply all_versions_spec. left. now rewrite S. }
  assert (N : universe args w <> []) by (intros E; rewrite E in Iu; destruct Iu).
  destruct (main_nonempty args w N) as (results & F & E).
  assert (Is : In v (sorted_by_reverse ver_key (universe args w))).
  { apply (Permutation_in _ (Permutation_sym
                               (sorted_by_reverse_permutation ver_key _))).
    exact Iu. }
  destruct (Forall2_In_l _ _ _ _ F Is) as (rec & Irec & C).
  destruct (cross_reference_sdk_status _ _ _ _ C) as [SS FS].
  assert (St : status rec = not_found) by (apply FS, found_values_empty, L).
  assert (Sdk : ios_sdk rec = None) by now apply SS.
  assert (X : xcode rec = v) by now apply cross_reference_xcode in C.
  exists {| run_exit :=
              ExitInt (if map_changed (previous w)
                            (_results_to_flat (output_rows args results))
                       then 1%Z else 0%Z);
            run_records := results;
            run_written :=
              Some (if detailed args
                    then DetailedFiles (output_rows args results)
                    else FlatFiles (_results_to_flat (output_rows args results))) |},
         rec.
  split; [exact E|]. simpl. repeat split; auto.
  intros flat W. destruct (detailed args); [discriminate|]. injection W as <-.
  destruct (get _ v) as [x|] eqn:G; [|reflexivity]. exfalso.
  apply get_Some_key, flat_keys in G. destruct G as (r' & I' & X' & U').
  apply output_rows_In in I'. destruct I' as [I' _].
  assert (r' = rec).
  { apply (NoDup_map_injective xcode results); auto.
    - now apply (main_records_distinct args w).
    - congruence. }
  subst r'. unfold usable in U'. rewrite Sdk in U'. discriminate.
Qed.

Lemma enumeration_only_version_witness :
  exists r rec,
    main default_arguments
         {| xcodes_cli := ["9.0"]; fetched := []; version_urls := [];
            previous := NoFile |} = Some r
    /\ In rec (run_records r) /\ xcode rec = "9.0" /\ status rec = not_found.
Proof.
  destruct (enumeration_only_version default_arguments
              {| xcodes_cli := ["9.0"]; fetched := []; version_urls := [];
                 previous := NoFile |} "9.0" eq_refl (or_introl eq_refl))
    as (r & rec & E & I & X & S & _).
  - intros s d H. simpl in H.
    repeat (destruct H as [[= <- <-]|H]; [reflexivity|]). destruct H.
  - exists r, rec. auto.
Defined.

(** X16.  With [--conflicts-only] and the flat output, the mapping
    written holds exactly the versions in conflict (with a non-empty
    resolved SDK): no [consensus] or [single_source] version is in it. *)
Theorem conflicts_only_flat args w :
  conflicts_only args = true ->
  exists r, main args w = Some r
    /\ forall flat,
         run_written r = Some (FlatFiles flat) ->
         forall k,
           In k (keys flat)
           <-> exists rec sdk,
                 In rec (run_records r) /\ xcode rec = k
                 /\ status rec = conflict
                 /\ ios_sdk rec = Some sdk /\ sdk <> "".
Proof.
  intros CO.
  destruct (universe args w) as [|v vs] eqn:U.
  - eexists. split; [now apply main_empty|]. simpl. discriminate.
  - assert (N : universe args w <> []) by (rewrite U; discriminate).
    destruct (main_nonempty args w N) as (results & F & E).
    eexists. split; [exact E|]. simpl. intros flat W.
    destruct (detailed args); [discriminate|]. injection W as <-.
    intros k. rewrite flat_keys. split.
    + intros (rec & I & X & Us). apply output_rows_In in I.
      destruct I as [I S]. specialize (S CO).
      destruct (Forall2_In_r _ _ _ _ F I) as (ver & _ & C).
      destruct (cross_reference_sdk_status _ _ _ _ C) as [SS _].
      unfold usable in Us. destruct (ios_sdk rec) as [sdk|] eqn:Sdk; [|discriminate].
      exists rec, sdk. repeat split; auto.
      * destruct S as [S|S]; [assumption|]. apply SS in S. discriminate.
      * now apply truthy_spec.
    + intros (rec & sdk & I & X & S & Sdk & Ne).
      exists rec. repeat split; auto.
      * unfold output_rows. rewrite CO. apply filter_In. split; [assumption|].
        now rewrite S.
      * unfold usable. rewrite Sdk. now apply truthy_spec.
Qed.

Lemma conflicts_only_flat_witness :
  exists r, main {| detailed := false; conflicts_only := true;
                    skip_xcodes := true |}
                 {| xcodes_cli := [];
                    fetched := [("apple_support", [("9", "11.0")])];
                    version_urls := []; previous := NoFile |} = Some r
    /\ run_written r = Some (FlatFiles []).
Proof.
  destruct (conflicts_only_flat
              {| detailed := false; conflicts_only := true; skip_xcodes := true |}
              {| xcodes_cli := [];
                 fetched := [("apple_support", [("9", "11.0")])];
                 version_urls := []; previous := NoFile |} eq_refl)
    as (r & E & _).
  exists r. split; [exact E|]. injection E as <-. reflexivity.
Defined.

(** *** Every record of a run *)

Lemma run_record_origin args w r rec :
  main args w = Some r -> In rec (run_records r) ->
  cross_reference (version_urls w) (xcode rec) (engine_sources w) = Some rec.
Proof.
  intros E I.
  destruct (universe args w) as [|v vs] eqn:U.
  - rewrite (main_empty args w U) in E. injection E as <-. destruct I.
  - assert (N : universe args w <> []) by (rewrite U; discriminate).
    destruct (main_nonempty args w N) as (results & F & E').
    rewrite E' in E. injection E as <-. simpl in I.
    destruct (Forall2_In_r _ _ _ _ F I) as (x & _ & H).
    now rewrite (cross_reference_xcode _ _ _ _ H).
Qed.

Lemma engine_sources_wf w : wf (engine_sources w).
Proof. apply ordered_sources_wf. Qed.

Lemma engine_sources_ranked w : ranked (engine_sources w).
Proof. apply ordered_sources_ranked. Qed.

Lemma found_values_few ver w :
  length (found_values ver (engine_sources w)) <= 8.
Proof.
  rewrite (found_values_reporting ver _ (engine_sources_wf w)).
  apply ordered_sources_few.
Qed.

Lemma record_wellformed urls ver srcs rec :
  wf srcs -> ranked srcs -> length (found_values ver srcs) < 200 ->
  cross_reference urls ver srcs = Some rec ->
  keys (sources rec) = keys srcs
  /\ chosen_from rec = first_authority srcs ver
  /\ (status rec = conflict -> (0 < agreement rec < 1)%Q).
Proof.
  intros W R L C.
  assert (K : forall g : string -> string * string,
             keys (map (fun s => (s, g s)) (keys srcs)) = keys srcs)
    by (intros g; apply keys_tabulate).
  destruct (cross_reference_cases urls ver srcs)
    as [[F X]|[(u & k & U & Kf & X)|(a & b & rest & k & sdk & U & Kf & G & X)]];
    rewrite X in C; injection C as <-; simpl;
    (split; [unfold source_entries; apply K|]).
  - split; [|discriminate].
    unfold first_authority.
    destruct (find (offers srcs ver) SOURCE_NAMES) as [s|] eqn:Fd; [|reflexivity].
    apply find_some in Fd. destruct Fd as [_ O].
    rewrite <- (mem_found_offers ver srcs s W), F in O. discriminate O.
  - split; [|destruct (Nat.ltb 1 _); discriminate].
    assert (N : found_values ver srcs <> [])
      by (intros F; rewrite F in U; discriminate U).
    destruct (first_authority_found ver srcs W R N) as (s & Fd & FA).
    rewrite FA. f_equal. unfold next_or.
    rewrite (find_pointwise _ _ SOURCE_NAMES (single_value_is_mem _ _ U)).
    now rewrite Fd.
  - assert (N : found_values ver srcs <> [])
      by (intros F; rewrite F in U; discriminate U).
    split.
    + destruct (first_authority_found ver srcs W R N) as (s & Fd & FA).
      rewrite FA. f_equal. unfold next_or. now rewrite Fd.
    + intros _.
      destruct (conflict_counts _ _ _ _ _ _ U G) as [C1 C2].
      destruct (nat_ratio_margin _ _ C1 C2 L) as [M0 M1].
      destruct (found_values ver srcs) as [|kv l] eqn:Fv; [congruence|].
      apply (py_round2_proper_fraction _ M0 M1).
Qed.

(** X17.  In every run of [main], each record lists the eight sources
    of [SOURCE_NAMES], in that order, in its ["sources"] field; its chosen
    source is the first of them that offers a value for its version; and
    if its status is [conflict], its agreement is strictly between 0 and
    1. *)
Theorem run_records_wellformed args w :
  exists r, main args w = Some r
    /\ forall rec,
         In rec (run_records r) ->
         keys (sources rec) = SOURCE_NAMES
         /\ chosen_from rec = first_authority (engine_sources w) (xcode rec)
         /\ (status rec = conflict -> (0 < agreement rec < 1)%Q).
Proof.
  destruct (main_outcomes args w) as (r & E & _).
  exists r. split; [exact E|]. intros rec I.
  pose proof (run_record_origin args w r rec E I) as C.
  assert (L : length (found_values (xcode rec) (engine_sources w)) < 200).
  { pose proof (found_values_few (xcode rec) w). lia. }
  destruct (record_wellformed _ _ _ _ (engine_sources_wf w)
              (engine_sources_ranked w) L C) as (K & Ch & Ag).
  split; [|split; assumption].
  rewrite K. apply ordered_sources_keys.
Qed.

(** ** The order of the sources in the dictionary *)

Lemma filter_length_permutation {A} (f : A -> bool) l l' :
  Permutation l l' -> length (filter f l) = length (filter f l').
Proof.
  induction 1 as [|x l l' P IH|x y l|l l' l'' P1 IH1 P2 IH2]; simpl.
  - reflexivity.
  - destruct (f x); simpl; now rewrite IH.
  - destruct (f x), (f y); reflexivity.
  - now rewrite IH1.
Qed.

Lemma reporting_permutation ver srcs srcs' :
  Permutation srcs srcs' ->
  Permutation (reporting ver srcs) (reporting ver srcs').
Proof.
  intros P. unfold reporting. now apply Permutation_flat_map.
Qed.

Lemma unique_values_permutation found found' :
  Permutation found found' ->
  Permutation (unique_values found) (unique_values found').
Proof.
  intros P. apply NoDup_Permutation; try apply NoDup_nodup.
  intros x. rewrite !unique_values_In. unfold values.
  split; apply Permutation_in; [|apply Permutation_sym];
    now apply Permutation_map.
Qed.

Lemma first_authority_permutation ver srcs srcs' :
  wf srcs -> Permutation srcs srcs' ->
  first_authority srcs' ver = first_authority srcs ver.
Proof.
  intros W P. unfold first_authority. apply find_pointwise.
  intros s. unfold offers, source_value.
  now rewrite (get_permutation _ _ s W P).
Qed.

Lemma record_chosen urls ver srcs rec :
  wf srcs -> ranked srcs -> cross_reference urls ver srcs = Some rec ->
  chosen_from rec = first_authority srcs ver.
Proof.
  intros W R C.
  destruct (cross_reference_cases urls ver srcs)
    as [[F X]|[(u & k & U & Kf & X)|(a & b & rest & k & sdk & U & Kf & G & X)]];
    rewrite X in C; injection C as <-; simpl.
  - unfold first_authority.
    destruct (find (offers srcs ver) SOURCE_NAMES) as [s|] eqn:Fd; [|reflexivity].
    apply find_some in Fd. destruct Fd as [_ O].
    rewrite <- (mem_found_offers ver srcs s W), F in O. discriminate O.
  - assert (N : found_values ver srcs <> [])
      by (intros F; rewrite F in U; discriminate U).
    destruct (first_authority_found ver srcs W R N) as (s & Fd & FA).
    rewrite FA. f_equal. unfold next_or.
    rewrite (find_pointwise _ _ SOURCE_NAMES (single_value_is_mem _ _ U)).
    now rewrite Fd.
  - assert (N : found_values ver srcs <> [])
      by (intros F; rewrite F in U; discriminate U).
    destruct (first_authority_found ver srcs W R N) as (s & Fd & FA).
    rewrite FA. f_equal. unfold next_or. now rewrite Fd.
Qed.

(** X18.  When every source name has a rank, the position of the
    sources in the dictionary does not matter: after any reordering
    [cross_reference] gives the same status, resolved SDK, chosen source
    and agreement. *)
Theorem source_order_irrelevant urls ver srcs srcs' :
  wf srcs -> ranked srcs -> Permutation srcs srcs' ->
  exists r r',
    cross_reference urls ver srcs = Some r
    /\ cross_reference urls ver srcs' = Some r'
    /\ status r' = status r
    /\ ios_sdk r' = ios_sdk r
    /\ chosen_from r' = chosen_from r
    /\ agreement r' = agreement r.
Proof.
  intros W R P.
  assert (W' : wf srcs') by exact (permutation_wf _ _ W P).
  assert (R' : ranked srcs').
  { unfold ranked, keys in *. eapply Permutation_Forall; [|exact R].
    now apply Permutation_map. }
  destruct (cross_reference_total urls ver srcs) as [r C].
  destruct (cross_reference_total urls ver srcs') as [r' C'].
  exists r, r'. split; [exact C|]. split; [exact C'|].
  assert (Ch : chosen_from r' = chosen_from r).
  { rewrite (record_chosen _ _ _ _ W R C), (record_chosen _ _ _ _ W' R' C').
    now apply first_authority_permutation. }
  assert (Pf : Permutation (found_values ver srcs) (found_values ver srcs')).
  { rewrite !found_values_reporting by assumption.
    now apply reporting_permutation. }
  assert (Wf : wf (found_values ver srcs)).
  { rewrite found_values_reporting by assumption. now apply reporting_wf. }
  pose proof (unique_values_permutation _ _ Pf) as Pu.
  pose proof (Permutation_length Pf) as Lf.
  pose proof (Permutation_length Pu) as Lu.
  destruct (cross_reference_cases urls ver srcs)
    as [[F X]|[(u & k & U & Kf & X)|(a & b & rest & k & sdk & U & Kf & G & X)]];
    destruct (cross_reference_cases urls ver srcs')
      as [[F' X']|[(u' & k' & U' & Kf' & X')
                  |(a' & b' & rest' & k' & sdk' & U' & Kf' & G' & X')]];
    rewrite X in C; rewrite X' in C';
    injection C as <-; injection C' as <-;
    try (rewrite F in Lu); try (rewrite F' in Lu);
    try (rewrite U in Lu); try (rewrite U' in Lu);
    try discriminate Lu;
    cbn [status ios_sdk chosen_from agreement
         not_found_record agreed_record conflict_record] in Ch |- *.
  - auto.
  - rewrite U, U' in Pu. apply Permutation_length_1 in Pu. subst u'.
    rewrite <- Lf. auto.
  - injection Ch as Ch. rewrite Ch in G'.
    rewrite <- (get_permutation _ _ _ Wf Pf) in G'.
    assert (sdk' = sdk) by congruence. subst sdk'.
    split; [reflexivity|]. split; [reflexivity|]. split; [now rewrite Ch|].
    f_equal.
    assert (Hc : count_agree (found_values ver srcs') sdk
                 = count_agree (found_values ver srcs) sdk).
    { unfold count_agree, values. symmetry. apply filter_length_permutation.
      now apply Permutation_map. }
    rewrite Hc.
    destruct (found_values ver srcs) as [|kv l], (found_values ver srcs') as [|kv' l'];
      try discriminate Lf; [reflexivity|]. now rewrite <- Lf.
Qed.

Lemma source_order_irrelevant_witness :
  exists r r',
    cross_reference [] "9.0" outvoted_authority = Some r
    /\ cross_reference [] "9.0" (rev outvoted_authority) = Some r'
    /\ chosen_from r' = chosen_from r
    /\ ios_sdk r' = ios_sdk r.
Proof.
  assert (R : ranked outvoted_authority).
  { unfold ranked. simpl. repeat constructor; simpl; tauto. }
  destruct (source_order_irrelevant [] "9.0" outvoted_authority
              (rev outvoted_authority) outvoted_authority_wf R
              (Permutation_rev _))
    as (r & r' & C & C' & _ & S & Ch & _).
  exists r, r'. auto.
Defined.

(** ** Merging the release-note probes *)

Lemma fold_left_invariant {A B} (f : A -> B -> A) (P : A -> Prop) l :
  (forall x, In x l -> forall a, P a -> P (f a x)) ->
  forall a, P a -> P (fold_left f l a).
Proof.
  induction l as [|x l IH]; intros H a Pa; simpl; [assumption|].
  apply IH.
  - intros y I. apply H. now right.
  - apply H; [now left | assumption].
Qed.

Lemma apple_docs_result_get probes : forall st k,
  get (fst (fold_left apple_docs_step probes st)) k
  = match get (fst st) k with
    | Some v => Some v
    | None => first_probe_sdk k probes
    end.
Proof.
  induction probes as [|[[k0 o0] u0] probes IH]; intros st k; simpl.
  - now destruct (get (fst st) k).
  - rewrite IH. unfold first_probe_sdk, apple_docs_step. simpl.
    destruct o0 as [sdk|]; simpl.
    + destruct (truthy sdk) eqn:T; simpl.
      * rewrite get_setdefault. destruct (get (fst st) k); [reflexivity|].
        rewrite andb_true_r. now destruct (String.eqb k0 k).
      * rewrite andb_false_r. reflexivity.
    + rewrite andb_false_r. reflexivity.
Qed.

(** X19.  In the merge of the release-note probes, a version keeps the
    SDK of the first completed probe that found one.  A URL is recorded
    for a version only by a probe that found the very SDK stored for it
    (or it was in the table before), and it is never overwritten. *)
Theorem apple_docs_merge_spec probes ver_urls :
  (forall k,
      get (fst (apple_docs_merge probes ver_urls)) k = first_probe_sdk k probes)
  /\ (forall k u,
        get (snd (apple_docs_merge probes ver_urls)) k = Some u ->
        get ver_urls k = Some u
        \/ exists sdk,
             In (k, Some sdk, u) probes
             /\ get (fst (apple_docs_merge probes ver_urls)) k = Some sdk)
  /\ (forall k u,
        get ver_urls k = Some u ->
        get (snd (apple_docs_merge probes ver_urls)) k = Some u).
Proof.
  unfold apple_docs_merge. split; [|split].
  - intros k. now rewrite apple_docs_result_get.
  - set (P := fun st : dict string * dict string =>
                forall k u, get (snd st) k = Some u ->
                  get ver_urls k = Some u
                  \/ exists sdk, In (k, Some sdk, u) probes
                                 /\ get (fst st) k = Some sdk).
    assert (Step : forall p, In p probes -> forall st, P st -> P (apple_docs_step st p)).
    { intros [[k0 o0] u0] I st Pst k u. unfold apple_docs_step. simpl.
      destruct o0 as [sdk|]; [|apply Pst].
      destruct (truthy sdk); [|apply Pst]. simpl.
      assert (Keep : forall u', get (snd st) k = Some u' ->
                get ver_urls k = Some u'
                \/ exists sdk', In (k, Some sdk', u') probes
                     /\ get (setdefault (fst st) k0 sdk) k = Some sdk').
      { intros u' G. destruct (Pst _ _ G) as [H|(sdk' & I' & G')]; [now left|].
        right. exists sdk'. split; [assumption|].
        rewrite get_setdefault. now rewrite G'. }
      destruct (String.eqb_spec
                  match get (fst st) k0 with Some v => v | None => sdk end sdk)
        as [E|N]; [|apply Keep].
      rewrite get_setdefault.
      destruct (get (snd st) k) as [u'|] eqn:G.
      - intros [= <-]. now apply Keep.
      - destruct (String.eqb_spec k0 k) as [->|Ne]; [|discriminate].
        intros [= <-]. right. exists sdk. split; [assumption|].
        rewrite get_setdefault.
        destruct (get (fst st) k) as [v|]; [now subst | now rewrite String.eqb_refl]. }
    apply (fold_left_invariant apple_docs_step P probes Step).
    intros k u G. now left.
  - set (Q := fun st : dict string * dict string =>
                forall k u, get ver_urls k = Some u -> get (snd st) k = Some u).
    assert (Step : forall p, In p probes -> forall st, Q st -> Q (apple_docs_step st p)).
    { intros [[k0 o0] u0] I st Qst k u G. unfold apple_docs_step. simpl.
      destruct o0 as [sdk|]; [|now apply Qst].
      destruct (truthy sdk); [|now apply Qst]. simpl.
      destruct (String.eqb _ sdk); [|now apply Qst].
      rewrite get_setdefault. now rewrite (Qst _ _ G). }
    apply (fold_left_invariant apple_docs_step Q probes Step).
    intros k u G. exact G.
Qed.

Lemma apple_docs_merge_spec_witness :
  get (snd (apple_docs_merge
              [("15.0", Some "17.0", "u1"); ("15.0", Some "17.2", "u2")] []))
      "15.0" = Some "u1"
  /\ exists sdk,
       In ("15.0", Some sdk, "u1")
          [("15.0", Some "17.0", "u1"); ("15.0", Some "17.2", "u2")]
       /\ get (fst (apple_docs_merge
                      [("15.0", Some "17.0", "u1"); ("15.0", Some "17.2", "u2")]
                      []))
              "15.0" = Some sdk.
Proof.
  assert (G : get (snd (apple_docs_merge
                          [("15.0", Some "17.0", "u1");
                           ("15.0", Some "17.2", "u2")] []))
                  "15.0" = Some "u1") by reflexivity.
  split; [exact G|].
  destruct (proj1 (proj2 (apple_docs_merge_spec
                            [("15.0", Some "17.0", "u1");
                             ("15.0", Some "17.2", "u2")] []))
              "15.0" "u1" G) as [H|H]; [discriminate H | exact H].
Defined.

Lemma parse_xcodereleases_spec_witness :
  get (fst (_parse_xcodereleases_json
              [ {| version_number := Some "15"; release_release := false;
                   release_beta := true; release_rc := false;
                   sdks_iOS := [Some "17"] |};
                {| version_number := Some "15.0"; release_release := true;
                   release_beta := false; release_rc := false;
                   sdks_iOS := [Some "17.2"] |} ] [] "u")) "15.0"
  = Some "17.2".
Proof.
  rewrite (proj1 (proj2 (parse_xcodereleases_spec _ [] "u"))). reflexivity.
Defined.
